(** * Region reconciliation and file loading of pc-nrfconnect-programmer

    A shallow embedding of [src/lib/actions/fileActions.js]: the two
    reconciler thunks [updateFileAppRegions] and [updateFileBlRegion], the
    out-of-flash warning of [updateFileRegions], the most-recently-used list
    and [parseOneFile].

    JavaScript numbers that hold addresses are integers far below 2^53, so
    they are modelled as [Z]; [undefined] accumulators are [option Z]. *)

From Stdlib Require Import ZArith Lia Ascii.
From stdpp Require Import base decidable option list gmap strings.

Local Open Scope Z_scope.

(** ** Immutable.js [List] operations used by the thunks *)

Module Immutable.
Section ops.
Context {A : Type} `{EqDecision A}.

(** [list.find(p)]: the first element satisfying [p], or [undefined]. *)
Definition find (p : A → bool) (l : list A) : option A :=
  snd <$> list_find (λ x, p x = true) l.

(** [list.indexOf(x)]: the index of the first element that is
    value-equal to [x], or [-1].  The thunks only look up an element the
    list holds: every element equal to it satisfies the same test, so which
    of several equal elements is found does not change the outcome. *)
Definition indexOf (l : list A) (x : A) : Z :=
  match list_find (λ y, y = x) l with
  | Some (i, _) => Z.of_nat i
  | None => -1
  end.

(** A negative index counts back from the end of the list. *)
Definition wrapIndex (l : list A) (i : Z) : Z :=
  if i <? 0 then Z.of_nat (length l) + i else i.

(** [list.remove(i)]: out of range leaves the list as it is. *)
Definition remove (i : Z) (l : list A) : list A :=
  let j := wrapIndex l i in
  if (0 <=? j) && (j <? Z.of_nat (length l)) then delete (Z.to_nat j) l
  else l.

(** [list.set(i, v)] for an index inside the list.  Outside the list
    Immutable.js grows the list with holes, which [list A] cannot hold;
    [updateFileBlRegion] only passes the index of an element it has just
    found (lemma [indexOf_elem_in_range]), so the fallback is never taken. *)
Definition set (i : Z) (v : A) (l : list A) : list A :=
  let j := wrapIndex l i in
  if (0 <=? j) && (j <? Z.of_nat (length l)) then <[Z.to_nat j := v]> l
  else l.

(** [list.push(v)]. *)
Definition push (l : list A) (v : A) : list A := l ++ [v].

(** [list.forEach(f)] where the callback updates variables of the
    enclosing scope: a left fold over the list the method was called on. *)
Definition forEach {S : Type} (l : list A) (f : S → A → S) (s : S) : S :=
  fold_left f l s.
End ops.
End Immutable.

(** ** Regions *)

(** Modelled from the spec: [RegionName] of [src/lib/util/regions.js], which
    is not part of the sources at hand; the spec's data model lists
    APPLICATION, SOFTDEVICE, BOOTLOADER and NONE. *)
Inductive RegionName := APPLICATION | SOFTDEVICE | BOOTLOADER | NONE.

(** Modelled from the spec: [RegionColor], an opaque display tag with one
    value per region name. *)
Inductive RegionColor :=
  ColorAPPLICATION | ColorSOFTDEVICE | ColorBOOTLOADER | ColorNONE.

(** Modelled from the spec: the [Region] record
    [{name, startAddress, size, color, sourceKeys}]; the fields carry the
    names the thunks read ([regionSize], [fileNames]). *)
Record Region := mkRegion {
  name : RegionName;
  startAddress : Z;
  regionSize : Z;
  color : RegionColor;
  fileNames : list string;
}.

#[global] Instance RegionName_eq_dec : EqDecision RegionName.
Proof. solve_decision. Defined.
#[global] Instance RegionColor_eq_dec : EqDecision RegionColor.
Proof. solve_decision. Defined.
#[global] Instance Region_eq_dec : EqDecision Region.
Proof. solve_decision. Defined.

(** [new Region({name, startAddress, regionSize, color})]: the fields that
    are not given keep the record's default, an empty [fileNames]. *)
Definition newRegion (n : RegionName) (s sz : Z) (c : RegionColor) : Region :=
  mkRegion n s sz c [].

(** [blRegion.set('regionSize', v)]. *)
Definition set_regionSize (r : Region) (v : Z) : Region :=
  mkRegion (name r) (startAddress r) v (color r) (fileNames r).

Definition endAddress (r : Region) : Z := startAddress r + regionSize r.

(** [name r === n]. *)
Definition named (n : RegionName) (r : Region) : bool :=
  bool_decide (name r = n).

(** ** Application state, as far as the thunks read it *)

(** Modelled from the spec: [DeviceInfo], read through
    [getState().app.target.deviceInfo]. *)
Record DeviceInfo := mkDeviceInfo {
  romSize : Z;
  pageSize : Z;
  uicrBaseAddr : Z;
}.

(** A parsed [MemoryMap]: a JavaScript [Map] from start address to data
    block, iterated in insertion order. *)
Definition MemoryMap := list (Z * list Byte.byte).

Record FileEntry := mkFileEntry {
  filename : string;
  modTime : Z;
  loadTime : Z;
  memMap : MemoryMap;
}.

Record AppState := mkAppState {
  file_regions : list Region;          (* app.file.regions *)
  file_loaded : gmap string FileEntry; (* app.file.loaded *)
  file_memMaps : list (string * MemoryMap); (* app.file.memMaps *)
  target_regions : list Region;        (* app.target.regions *)
  target_deviceInfo : DeviceInfo;      (* app.target.deviceInfo *)
}.

(** What a thunk hands to [dispatch]: the action objects built by the
    action creators of this file, and the thunks of other modules. *)
Inductive Action :=
| ERROR_DIALOG_SHOW (message : string)
| FILE_PARSE (loaded : gmap string FileEntry) (memMaps : list (string * MemoryMap))
| FILE_REGIONS_KNOWN (regions : list Region)
| FILE_WARNING_ADD (warning : string)
| FILE_WARNING_REMOVE
| MCUBOOT_FILE_KNOWN (filePath : option string)
| THUNK_updateDetectedRegionNames
| THUNK_updateFileRegions
| THUNK_updateTargetWritable.

(** ** Truthiness of an accumulator that is [undefined] or a number *)

(** [!x] *)
Definition falsy (x : option Z) : bool :=
  match x with
  | None => true
  | Some v => v =? 0
  end.

(** [!x || x < y], the comparison being evaluated only for a truthy [x]. *)
Definition unset_or (cmp : Z → Z → bool) (x : option Z) (y : Z) : bool :=
  falsy x || match x with Some v => cmp v y | None => false end.

(** ** updateFileAppRegions *)

Section app_regions.
Variable targetBootloaderRegion : option Region.

(** The condition shared by the end-address scan and the removal loop:
    [targetBootloaderRegion && r.name === APPLICATION
     && r.startAddress < targetBootloaderRegion.startAddress]. *)
Definition appBelowBl (r : Region) : bool :=
  match targetBootloaderRegion with
  | Some bl => named APPLICATION r && (startAddress r <? startAddress bl)
  | None => false
  end.

(** The first [forEach] holds two independent updates.  The first:
    [if (r.name === APPLICATION
         && (!appStartAddress || appStartAddress > r.startAddress))
       appStartAddress = r.startAddress]. *)
Definition appStartScan (appStartAddress : option Z) (r : Region) : option Z :=
  if named APPLICATION r && unset_or Z.gtb appStartAddress (startAddress r)
  then Some (startAddress r) else appStartAddress.

(** The second:
    [if (targetBootloaderRegion && r.name === APPLICATION
         && r.startAddress < targetBootloaderRegion.startAddress
         && (!appEndAddress || appEndAddress < r.startAddress))
       appEndAddress = r.startAddress + r.regionSize]. *)
Definition appEndScan (appEndAddress : option Z) (r : Region) : option Z :=
  if appBelowBl r && unset_or Z.ltb appEndAddress (startAddress r)
  then Some (startAddress r + regionSize r) else appEndAddress.

(** One round of the first [forEach]: the pair is
    [(appStartAddress, appEndAddress)]. *)
Definition appScan (acc : option Z * option Z) (r : Region)
  : option Z * option Z :=
  (appStartScan (fst acc) r, appEndScan (snd acc) r).

(** One round of the second [forEach]: it runs over the list the method
    was called on and rebinds [fileRegions]. *)
Definition appRemove (fileRegions : list Region) (r : Region) : list Region :=
  if appBelowBl r
  then Immutable.remove (Immutable.indexOf fileRegions r) fileRegions
  else fileRegions.

Definition mergeAppRegions (fileRegions : list Region) : option (list Region) :=
  match targetBootloaderRegion,
        Immutable.forEach fileRegions appScan (None, None) with
  | Some _, (Some appStartAddress, Some appEndAddress) =>
      let fileRegions' := Immutable.forEach fileRegions appRemove fileRegions in
      let appRegion := newRegion APPLICATION appStartAddress
                         (appEndAddress - appStartAddress) ColorAPPLICATION in
      Some (Immutable.push fileRegions' appRegion)
  | _, _ => None
  end.
End app_regions.

Definition updateFileAppRegions (st : AppState) : list Action :=
  let fileRegions := file_regions st in
  let targetRegions := target_regions st in
  let targetBootloaderRegion := Immutable.find (named BOOTLOADER) targetRegions in
  match mergeAppRegions targetBootloaderRegion fileRegions with
  | Some fileRegions' => [FILE_REGIONS_KNOWN fileRegions']
  | None => []
  end.

(** ** updateFileBlRegion *)

Section bl_region.
Variable blRegion : Region.
Variable deviceInfo : DeviceInfo.

(** The NONE regions the scan looks at. *)
Definition noneAfterBl (r : Region) : bool :=
  named NONE r
  && (startAddress r >? startAddress blRegion)
  && (startAddress r + regionSize r <? romSize deviceInfo).

(** One round of the first [forEach] over [blEndAddress]. *)
Definition blScan (blEndAddress : option Z) (r : Region) : option Z :=
  if noneAfterBl r && unset_or Z.leb blEndAddress (startAddress r)
  then Some (startAddress r + regionSize r) else blEndAddress.

(** One round of the second [forEach]. *)
Definition blRemove (fileRegions : list Region) (r : Region) : list Region :=
  if named NONE r
  then Immutable.remove (Immutable.indexOf fileRegions r) fileRegions
  else fileRegions.

Definition mergeBlRegion (fileRegions : list Region) : option (list Region) :=
  let blStartAddress := startAddress blRegion in
  match Immutable.forEach fileRegions blScan None with
  | Some blEndAddress =>
      let fileRegions' := Immutable.forEach fileRegions blRemove fileRegions in
      let blRegionIndex := Immutable.indexOf fileRegions' blRegion in
      let blRegion' := set_regionSize blRegion (blEndAddress - blStartAddress) in
      Some (Immutable.set blRegionIndex blRegion' fileRegions')
  | None => None
  end.
End bl_region.

Definition updateFileBlRegion (st : AppState) : list Action :=
  let fileRegions := file_regions st in
  match Immutable.find (named BOOTLOADER) fileRegions with
  | None => []
  | Some blRegion =>
      match mergeBlRegion blRegion (target_deviceInfo st) fileRegions with
      | Some fileRegions' => [FILE_REGIONS_KNOWN fileRegions']
      | None => []
      end
  end.

(** ** Dispatch *)

(** Modelled from the spec: the reducers are not part of the sources at
    hand.  The region sequence handed to [fileRegionsKnownAction] becomes
    the store's region sequence, and the map and the sequence handed to
    [fileParseAction] become the store's loaded files; the other actions
    touch parts of the store that are not modelled here. *)
Definition reduce (st : AppState) (a : Action) : AppState :=
  match a with
  | FILE_REGIONS_KNOWN rs =>
      mkAppState rs (file_loaded st) (file_memMaps st)
        (target_regions st) (target_deviceInfo st)
  | FILE_PARSE l m =>
      mkAppState (file_regions st) l m (target_regions st) (target_deviceInfo st)
  | _ => st
  end.

(** [dispatch(thunk())]: the thunk reads the state and its actions are
    reduced in the order they were dispatched. *)
Definition dispatch (thunk : AppState → list Action) (st : AppState) : AppState :=
  fold_left reduce (thunk st) st.

(** The reconciler: the application-merge pass, then the bootloader-merge
    pass. *)
Definition reconcile (st : AppState) : AppState :=
  dispatch updateFileBlRegion (dispatch updateFileAppRegions st).

(** ** updateFileRegions: data outside the user-writable areas *)

(** The digits of [hexpad8], below. *)
Definition hexDigit (d : Z) : ascii :=
  match d with
  | 0 => "0" | 1 => "1" | 2 => "2" | 3 => "3" | 4 => "4" | 5 => "5"
  | 6 => "6" | 7 => "7" | 8 => "8" | 9 => "9" | 10 => "A" | 11 => "B"
  | 12 => "C" | 13 => "D" | 14 => "E" | _ => "F"
  end%char.

Fixpoint hexDigits (fuel : nat) (n : Z) (acc : string) : string :=
  match fuel with
  | O => acc
  | S fuel' =>
      let acc' := String (hexDigit (n mod 16)) acc in
      if n <? 16 then acc' else hexDigits fuel' (n / 16) acc'
  end.

(** [n.toString(16)] for a non-negative integer. *)
Definition toHex (n : Z) : string :=
  hexDigits (S (Z.to_nat (Z.log2 n))) n "".

Fixpoint zeros (k : nat) : string :=
  match k with
  | O => ""
  | S k' => String "0" (zeros k')
  end.

(** [s.padStart(w, '0')] *)
Definition padStart0 (w : nat) (s : string) : string :=
  zeros (w - String.length s) +:+ s.

(** Modelled from the spec: [hexpad8] of [src/lib/util/hexpad.js], which is
    not part of the sources at hand: the address as an "8-hex-digit,
    zero-padded" string, that is the number in base 16 padded with zeros on
    the left to eight digits. *)
Definition hexpad8 (n : Z) : string := padStart0 8 (toHex n).




(** One entry of the [Map] returned by [MemoryMap.overlapMemoryMaps]: the
    start address and the array of [[key, bytes]] tuples covering the block.
    The library never stores an empty array, so the first tuple, which
    [overlap[0][1].length] reads, is kept apart. *)
Record Overlap := mkOverlap {
  overlap_first : string * list Byte.byte;
  overlap_rest : list (string * list Byte.byte);
}.

Definition Overlaps := list (Z * Overlap).

(** The test of the out-of-displaying-area loop. *)
Definition outsideFlash (deviceInfo : DeviceInfo) (startAddress endAddress : Z) : bool :=
  ((startAddress <? uicrBaseAddr deviceInfo) && (endAddress >? romSize deviceInfo))
  || ((startAddress >=? uicrBaseAddr deviceInfo)
      && (endAddress >? uicrBaseAddr deviceInfo + pageSize deviceInfo)).

Definition overlapEnd (startAddress : Z) (overlap : Overlap) : Z :=
  startAddress + Z.of_nat (length (snd (overlap_first overlap))).

(** [`${hexpad8(startAddress)}-${hexpad8(endAddress)}`] *)
Definition renderBlock (startAddress endAddress : Z) : string :=
  hexpad8 startAddress +:+ "-" +:+ hexpad8 endAddress.

(** One round of [overlaps.forEach]: [outsideFlashBlocks.push(...)]. *)
Definition outsideScan (deviceInfo : DeviceInfo) (outsideFlashBlocks : list string)
    (entry : Z * Overlap) : list string :=
  let '(startAddress, overlap) := entry in
  let endAddress := overlapEnd startAddress overlap in
  if outsideFlash deviceInfo startAddress endAddress
  then outsideFlashBlocks ++ [renderBlock startAddress endAddress]
  else outsideFlashBlocks.

Definition outsideFlashBlocks (deviceInfo : DeviceInfo) (overlaps : Overlaps) : list string :=
  fold_left (outsideScan deviceInfo) overlaps [].

(** [blocks.join(', ')] *)
Fixpoint join (sep : string) (blocks : list string) : string :=
  match blocks with
  | [] => ""
  | [b] => b
  | b :: bs => b +:+ sep +:+ join sep bs
  end.

Section file_regions.
(** Collaborators that live outside this file: the overlap computation of
    the nrf-intel-hex library and the region classifier. *)
Variable overlapMemoryMaps : list (string * MemoryMap) → Overlaps.
Variable getFileRegions : list (string * MemoryMap) → DeviceInfo → list Region.

Definition updateFileRegions (st : AppState) : list Action :=
  let overlaps := overlapMemoryMaps (file_memMaps st) in
  let regions := getFileRegions (file_memMaps st) (target_deviceInfo st) in
  let overlapping :=
    if existsb (λ r, 1 <? Z.of_nat (length (fileNames r))) regions
    then [FILE_WARNING_ADD "Some of the HEX files have overlapping data."]
    else [] in
  let blocks := outsideFlashBlocks (target_deviceInfo st) overlaps in
  let outside :=
    match blocks with
    | [] => []
    | _ => [FILE_WARNING_ADD ("There is data outside the user-writable areas ("
                               +:+ join ", " blocks +:+ ").")]
    end in
  [FILE_WARNING_REMOVE] ++ overlapping ++ outside
  ++ [FILE_REGIONS_KNOWN regions; THUNK_updateDetectedRegionNames].
End file_regions.

(** ** The most-recently-used list *)

(** [persistentStore.get('mruFiles', [])] is the list itself. *)
Definition removeMruFile (filename : string) (files : list string) : list string :=
  filter (λ file, file ≠ filename) files.

(** [files.unshift(filename); files.splice(10)] when the name is new. *)
Definition addMruFile (filename : string) (files : list string) : list string :=
  if Immutable.indexOf files filename =? -1
  then take 10 (filename :: files)
  else files.

(** ** parseOneFile *)

Definition MCUBOOT_FW_START_ADDRESS : Z := 0xC000.

(** How the promise of an async thunk settles. *)
Inductive Outcome := Resolved | Rejected.

Record ParseResult := mkParseResult {
  outcome : Outcome;
  dispatched : list Action;
  mruFiles : list string;
}.

(** The file system and the HEX parser as the thunk sees them. *)
Record FileSystem := mkFileSystem {
  fs_stat : string → string + Z;            (* error, or the stats' mtime *)
  fs_readFile : string → string + string;   (* error, or the file's text *)
  fromHex : string → string + MemoryMap;    (* exception, or the memory map *)
  basename : string → string;
  now : Z;                                  (* new Date() *)
}.

(** [loaded] is a plain object: [loaded[filePath]] is truthy for a path that
    has an entry, and for the property names every object inherits. *)
Definition inheritedKeys : list string :=
  ["constructor"; "hasOwnProperty"; "isPrototypeOf"; "propertyIsEnumerable";
   "toLocaleString"; "toString"; "valueOf"; "__proto__"; "__defineGetter__";
   "__defineSetter__"; "__lookupGetter__"; "__lookupSetter__"].

Definition isLoaded (loaded : gmap string FileEntry) (filePath : string) : bool :=
  bool_decide (is_Some (loaded !! filePath)) || bool_decide (filePath ∈ inheritedKeys).

(** One round of [memMap.forEach]: the dispatches it makes. *)
Definition mcubootScan (filePath : string) (acts : list Action)
    (entry : Z * list Byte.byte) : list Action :=
  let '(address, block) := entry in
  if address =? MCUBOOT_FW_START_ADDRESS
  then acts ++ [MCUBOOT_FILE_KNOWN (Some filePath)]
  else acts.

Definition parseOneFile (fs : FileSystem) (filePath : string)
    (st : AppState) (mru : list string) : ParseResult :=
  let loaded := file_loaded st in
  let memMaps := file_memMaps st in
  if isLoaded loaded filePath then mkParseResult Resolved [] mru
  else
    match fs_stat fs filePath with
    | inl statsError =>
        mkParseResult Rejected [ERROR_DIALOG_SHOW statsError]
          (removeMruFile filePath mru)
    | inr mtime =>
        match fs_readFile fs filePath with
        | inl readError =>
            mkParseResult Rejected [ERROR_DIALOG_SHOW readError]
              (removeMruFile filePath mru)
        | inr data =>
            let mru' := addMruFile filePath mru in
            match fromHex fs data with
            | inl e => mkParseResult Resolved [ERROR_DIALOG_SHOW e] mru'
            | inr memMap =>
                let flags := fold_left (mcubootScan filePath) memMap [] in
                let newLoaded :=
                  <[filePath := mkFileEntry (basename fs filePath) mtime (now fs) memMap]>
                    loaded in
                let newMemMaps := memMaps ++ [(filePath, memMap)] in
                mkParseResult Resolved
                  (flags ++ [FILE_PARSE newLoaded newMemMaps;
                             THUNK_updateFileRegions;
                             THUNK_updateTargetWritable])
                  mru'
            end
        end
    end.

(** The file was read and parsed: none of the early exits was taken. *)
Definition parsedAs (fs : FileSystem) (filePath : string) (st : AppState)
    (memMap : MemoryMap) : Prop :=
  isLoaded (file_loaded st) filePath = false
  ∧ ∃ mtime data, fs_stat fs filePath = inr mtime
      ∧ fs_readFile fs filePath = inr data
      ∧ fromHex fs data = inr memMap.

(** The store after the actions of a settled [parseOneFile]. *)
Definition afterParse (r : ParseResult) (st : AppState) : AppState :=
  fold_left reduce (dispatched r) st.

(** ** Vocabulary of the properties *)

(** The half-open intervals [[start, start+size)] of two regions share an
    address. *)
Definition intersects (a b : Region) : Prop :=
  Z.max (startAddress a) (startAddress b) < Z.min (endAddress a) (endAddress b).

#[global] Instance intersects_dec a b : Decision (intersects a b).
Proof. unfold intersects. apply _. Defined.

(** No two regions at different positions of the sequence intersect. *)
Definition disjointRegions (l : list Region) : Prop :=
  ∀ i j a b, i ≠ j → l !! i = Some a → l !! j = Some b → ¬ intersects a b.

(** The same, by recursion on the sequence. *)
Fixpoint pairwiseDisjoint (l : list Region) : Prop :=
  match l with
  | [] => True
  | a :: l' => Forall (λ b, ¬ intersects a b) l' ∧ pairwiseDisjoint l'
  end.

(** The region sequence after [dispatch(updateFileAppRegions())], given the
    target's regions. *)
Definition appPass (trs rs : list Region) : list Region :=
  default rs (mergeAppRegions (Immutable.find (named BOOTLOADER) trs) rs).

(** The region sequence after [dispatch(updateFileBlRegion())]. *)
Definition blPass (di : DeviceInfo) (rs : list Region) : list Region :=
  match Immutable.find (named BOOTLOADER) rs with
  | Some bl => default rs (mergeBlRegion bl di rs)
  | None => rs
  end.

(** A sequence the application-merge pass has nothing left to do on: no
    fragment lies below the bootloader, or the only one is a synthesized
    region at the end. *)
Definition settled (tbl : option Region) (l : list Region) : Prop :=
  Forall (λ r, appBelowBl tbl r = false) l
  ∨ ∃ X M, l = X ++ [M]
      ∧ Forall (λ r, appBelowBl tbl r = false) X
      ∧ appBelowBl tbl M = true
      ∧ color M = ColorAPPLICATION ∧ fileNames M = [].

(** The addresses from [lo] up to [hi], [hi] excluded, hold an address of
    the region. *)
Definition spanHits (lo hi : Z) (k : Region) : Prop :=
  Z.max lo (startAddress k) < Z.min hi (endAddress k).

#[global] Instance spanHits_dec lo hi k : Decision (spanHits lo hi k).
Proof. unfold spanHits. apply _. Defined.

(** Room for the application merge, on the file's regions before the
    passes: no region that updateFileAppRegions keeps has an address in a
    span that runs from the start of an APPLICATION region to the end of an
    APPLICATION region below the target's bootloader. *)
Definition appSpansClear (trs rs : list Region) : Prop :=
  let tbl := Immutable.find (named BOOTLOADER) trs in
  Forall (λ a, named APPLICATION a = true →
    Forall (λ b, appBelowBl tbl b = true →
      Forall (λ k, appBelowBl tbl k = false →
                   ¬ spanHits (startAddress a) (endAddress b) k) rs) rs) rs.

#[global] Instance appSpansClear_dec trs rs : Decision (appSpansClear trs rs).
Proof. unfold appSpansClear. apply _. Defined.

(** Room for the bootloader merge, on the file's regions before the passes:
    no region other than NONE regions and the file's first BOOTLOADER
    region has an address in a span that runs from the start of that
    BOOTLOADER region to the end of a NONE region that starts after it and
    ends before romSize. *)
Definition blSpansClear (di : DeviceInfo) (rs : list Region) : Prop :=
  match Immutable.find (named BOOTLOADER) rs with
  | Some bl =>
      Forall (λ n, noneAfterBl bl di n = true →
        Forall (λ k, named NONE k = false → k ≠ bl →
                     ¬ spanHits (startAddress bl) (endAddress n) k) rs) rs
  | None => True
  end.

#[global] Instance blSpansClear_dec di rs : Decision (blSpansClear di rs).
Proof.
  unfold blSpansClear. destruct (Immutable.find (named BOOTLOADER) rs); apply _.
Defined.

(** The spans of the two merges keep clear of each other: no span of the
    first kind shares an address with a span of the second kind. *)
Definition spansApart (trs : list Region) (di : DeviceInfo) (rs : list Region) : Prop :=
  let tbl := Immutable.find (named BOOTLOADER) trs in
  match Immutable.find (named BOOTLOADER) rs with
  | Some bl =>
      Forall (λ a, named APPLICATION a = true →
        Forall (λ b, appBelowBl tbl b = true →
          Forall (λ n, noneAfterBl bl di n = true →
                       ¬ (Z.max (startAddress a) (startAddress bl)
                          < Z.min (endAddress b) (endAddress n))) rs) rs) rs
  | None => True
  end.

#[global] Instance spansApart_dec trs di rs : Decision (spansApart trs di rs).
Proof.
  unfold spansApart. destruct (Immutable.find (named BOOTLOADER) rs); apply _.
Defined.

(** Well-formed input of the scans: a positive start address and a
    non-negative size. *)
Definition positioned (r : Region) : Prop :=
  0 < startAddress r ∧ 0 ≤ regionSize r.

(** The two regions do not share an address, empty regions included. *)
Definition separate (a b : Region) : Prop :=
  endAddress a ≤ startAddress b ∨ endAddress b ≤ startAddress a.

(** The same with at least one free address between the two. *)
Definition apart (a b : Region) : Prop :=
  endAddress a < startAddress b ∨ endAddress b < startAddress a.

Fixpoint pairwise (R : Region → Region → Prop) (l : list Region) : Prop :=
  match l with
  | [] => True
  | a :: l' => Forall (R a) l' ∧ pairwise R l'
  end.

(** The merge passes in the words of the specification, to compare the
    thunks with. *)
Definition minimumZ (l : list Z) : option Z :=
  match l with
  | [] => None
  | x :: l' => Some (fold_left Z.min l' x)
  end.

Definition maximumZ (l : list Z) : option Z :=
  match l with
  | [] => None
  | x :: l' => Some (fold_left Z.max l' x)
  end.

(** "compute appStart = min(start) over APPLICATION fragments; compute
    appEnd = max(start+size) over APPLICATION fragments whose start is below
    the bootloader region's start; remove all such fragments; insert one
    synthesized APPLICATION region [appStart, appEnd)". *)
Definition appMergeSpec (bl : Region) (rs : list Region) : option (list Region) :=
  match minimumZ (startAddress <$> filter (λ r, named APPLICATION r = true) rs),
        maximumZ (endAddress <$> filter (λ r, appBelowBl (Some bl) r = true) rs) with
  | Some appStart, Some appEnd =>
      Some (filter (λ r, appBelowBl (Some bl) r = false) rs
              ++ [newRegion APPLICATION appStart (appEnd - appStart) ColorAPPLICATION])
  | _, _ => None
  end.

(** "scan NONE regions whose range starts after blStart and ends before
    romSize; let blEnd = max(start+size) over those; remove the scanned NONE
    regions and widen the BOOTLOADER region to [blStart, blEnd)". *)
Definition blMergeSpec (bl : Region) (di : DeviceInfo) (rs : list Region)
    : option (list Region) :=
  match maximumZ (endAddress <$> filter (λ r, noneAfterBl bl di r = true) rs) with
  | Some blEnd =>
      Some ((λ r, if decide (r = bl)
                  then set_regionSize bl (blEnd - startAddress bl) else r)
              <$> filter (λ r, noneAfterBl bl di r = false) rs)
  | None => None
  end.

(** Sample regions and states for the examples. *)
Definition regionState (rs trs : list Region) (di : DeviceInfo) : AppState :=
  mkAppState rs ∅ [] trs di.

Definition APP (s e : Z) : Region := newRegion APPLICATION s (e - s) ColorAPPLICATION.
Definition BL (s e : Z) : Region := newRegion BOOTLOADER s (e - s) ColorBOOTLOADER.
Definition NO (s e : Z) : Region := newRegion NONE s (e - s) ColorNONE.

#[global] Instance pairwiseDisjoint_dec l : Decision (pairwiseDisjoint l).
Proof. induction l as [|a l IH]; simpl; apply _. Defined.

Definition nrf_di : DeviceInfo := mkDeviceInfo 0x8000 0x1000 0x10001000.

(** Two application fragments with unclassified data between them, on a
    target whose bootloader starts at 0x5000. *)
Definition gapState : AppState :=
  regionState [APP 0x1000 0x2000; NO 0x2000 0x3000; APP 0x3000 0x4000]
    [BL 0x5000 0x6000] nrf_di.

(** Two application fragments and a bootloader followed by padding. *)
Definition paddedState : AppState :=
  regionState [APP 0x1000 0x2000; APP 0x3000 0x4000; BL 0x7000 0x7100; NO 0x7100 0x7200]
    [BL 0x7000 0x7100] nrf_di.

(** The load failed: the promise was rejected or an error was reported. *)
Definition failed (r : ParseResult) : Prop :=
  outcome r = Rejected ∨ ∃ message, ERROR_DIALOG_SHOW message ∈ dispatched r.

(** A store that holds one file, and a file system on which every file
    reads as a HEX file with one block at the MCUBoot start address. *)
Definition sampleMap : MemoryMap := [(0xC000, [Byte.x01; Byte.x02])].

Definition loadedState : AppState :=
  mkAppState [] {[ "a.hex" := mkFileEntry "a.hex" 0 1 sampleMap ]}
    [("a.hex", sampleMap)] [] nrf_di.

Definition sampleFs : FileSystem :=
  mkFileSystem (λ _, inr 0) (λ _, inr ":00000001FF") (λ _, inr sampleMap) id 2.

(** The number of times a path occurs in the list. *)
Definition occurrences (filename : string) (files : list string) : nat :=
  length (filter (λ file, file = filename) files).


(** * The rest of the action creators' module *)

#[global] Instance RegionName_countable : Countable RegionName.
Proof.
  refine (inj_countable'
            (λ n, match n with
                  | APPLICATION => 0 | SOFTDEVICE => 1 | BOOTLOADER => 2 | NONE => 3
                  end%nat)
            (λ i, match i with
                  | 0 => APPLICATION | 1 => SOFTDEVICE | 2 => BOOTLOADER | _ => NONE
                  end%nat) _).
  by intros [].
Defined.

(** The actions of this module that [Action] does not list, next to those
    it does. *)
Inductive Dispatched :=
| PLAIN (a : Action)
| FILE_REGION_NAMES_KNOWN (detectedRegionNames : gset RegionName)
| FILES_EMPTY
| MRU_FILES_LOAD_SUCCESS (files : list string).

(** ** updateDetectedRegionNames *)

Definition regionChecklist : list RegionName := [APPLICATION; SOFTDEVICE; BOOTLOADER].

Section detected_names.
(** [r.name] as a condition: the values of the [RegionName] constants are
    declared in [src/lib/util/regions.js], which is not at hand. *)
Variable nameTruthy : RegionName → bool.

(** One round of [fileRegions.forEach]. *)
Definition detectScan (detectedRegionNames : gset RegionName) (r : Region)
    : gset RegionName :=
  if nameTruthy (name r) && bool_decide (name r ∈ regionChecklist)
  then detectedRegionNames ∪ {[name r]}
  else detectedRegionNames.

Definition updateDetectedRegionNames (st : AppState) : list Dispatched :=
  [FILE_REGION_NAMES_KNOWN (Immutable.forEach (file_regions st) detectScan ∅)].
End detected_names.

(** ** removeFile, closeFiles, loadMruFiles *)

Definition removeFile (filePath : string) (st : AppState) : list Action :=
  let loaded := file_loaded st in
  let memMaps := file_memMaps st in
  let newMemMaps := filter (λ element, element.1 ≠ filePath) memMaps in
  let newLoaded := delete filePath loaded in
  [FILE_PARSE newLoaded newMemMaps; THUNK_updateFileRegions; THUNK_updateTargetWritable].

Definition closeFiles : list Dispatched :=
  [PLAIN FILE_WARNING_REMOVE; FILES_EMPTY; PLAIN THUNK_updateFileRegions;
   PLAIN THUNK_updateTargetWritable].

Definition loadMruFiles (mru : list string) : list Dispatched :=
  [MRU_FILES_LOAD_SUCCESS mru].

(** ** openFile *)

Record OpenResult := mkOpenResult {
  open_outcome : Outcome;
  open_log : list Dispatched;
  open_state : AppState;
  open_mru : list string;
}.

(** [if (filename)] on a string or [undefined]. *)
Definition truthyName (filename : string) : bool :=
  negb (bool_decide (filename = "")).

(** [openFile(filename, ...rest)]: the files are parsed one after the other,
    each [await] ending before the next call; a rejected [parseOneFile]
    rejects [openFile] on the spot. *)
Fixpoint openFile (fs : FileSystem) (filenames : list string)
    (st : AppState) (mru : list string) : OpenResult :=
  match filenames with
  | [] => mkOpenResult Resolved (loadMruFiles mru) st mru
  | filename :: rest =>
      if truthyName filename then
        let r := parseOneFile fs filename st mru in
        let st' := afterParse r st in
        let log := PLAIN (MCUBOOT_FILE_KNOWN None) :: (PLAIN <$> dispatched r) in
        match outcome r with
        | Rejected => mkOpenResult Rejected log st' (mruFiles r)
        | Resolved =>
            let o := openFile fs rest st' (mruFiles r) in
            mkOpenResult (open_outcome o) (log ++ open_log o) (open_state o) (open_mru o)
        end
      else mkOpenResult Resolved (loadMruFiles mru) st mru
  end.

(** ** checkUpToDateFiles *)

(** How a promise ends; a callback that throws leaves its promise pending. *)
Inductive Settlement := Resolves | Rejects | NeverSettles.

(** The callback of [stat] for one loaded file: [stats] is [undefined] when
    [stat] fails, and reading [stats.mtime] throws. *)
Definition statChanged (fs : FileSystem) (e : string * FileEntry)
    : option (option string) :=
  match fs_stat fs e.1 with
  | inl _ => None
  | inr mtime => Some (if loadTime e.2 <? mtime then Some e.1 else None)
  end.

(** [filenames.filter(i => !!i)] *)
Definition keepTruthy (i : option string) : option string :=
  match i with
  | Some p => if truthyName p then Some p else None
  | None => None
  end.

(** The names handed to the second [then], or nothing when a callback
    threw.  [Object.keys(loaded)] lists the paths in the order they were
    inserted; the store is a finite map here, which lists them in the order
    of its keys, so the names are the code's up to their order. *)
Definition changedFiles (fs : FileSystem) (loaded : gmap string FileEntry)
    : option (list string) :=
  omap keepTruthy <$> mapM (statChanged fs) (map_to_list loaded).

Record UpToDate := mkUpToDate {
  utd_settles : Settlement;
  utd_dialog : option (list string);   (* the file names the message box lists *)
  utd_refresh : bool;                  (* dispatch(refreshAllFiles()) *)
  utd_behaviour : option string;       (* 'behaviour-when-files-not-up-to-date' *)
}.

(** The message box, answered with a button and the state of its checkbox. *)
Definition askUser (filenames : list string) (behaviour : option string)
    (refresh : Settlement) (button : Z) (doNotAskAgain : bool) : UpToDate :=
  let behaviour' :=
    if doNotAskAgain then Some (if button =? 0 then "ignore" else "reload")
    else behaviour in
  if button =? 0 then mkUpToDate Resolves (Some filenames) false behaviour'
  else if button =? 1 then
    mkUpToDate (match refresh with Resolves => Resolves | _ => NeverSettles end)
      (Some filenames) true behaviour'
  else mkUpToDate Rejects (Some filenames) false behaviour'.

(** The second [then]: [refresh] is how the promise of [refreshAllFiles]
    would end. *)
Definition upToDateDecision (filenames : list string) (behaviour : option string)
    (refresh : Settlement) (button : Z) (doNotAskAgain : bool) : UpToDate :=
  if (length filenames =? 0)%nat then mkUpToDate Resolves None false behaviour
  else
    match behaviour with
    | Some b =>
        if bool_decide (b = "ignore") then mkUpToDate Resolves None false behaviour
        else if bool_decide (b = "reload") then mkUpToDate refresh None true behaviour
        else askUser filenames behaviour refresh button doNotAskAgain
    | None => askUser filenames behaviour refresh button doNotAskAgain
    end.

Definition checkUpToDateFiles (fs : FileSystem) (st : AppState)
    (behaviour : option string) (refresh : Settlement)
    (button : Z) (doNotAskAgain : bool) : UpToDate :=
  match changedFiles fs (file_loaded st) with
  | Some filenames => upToDateDecision filenames behaviour refresh button doNotAskAgain
  | None => mkUpToDate NeverSettles None false behaviour
  end.

(** * modemTargetActions.js *)

(** The error handed to the callback of [nrfjprog.programDFU]: an object
    with a [message], or a value without one. *)
Inductive DfuError :=
| ErrorObject (message : string)
| ErrorValue (text : string).

(** The payload of [writingFailAction]: a text, or the error itself. *)
Inductive ErrorMsg :=
| Text (s : string)
| TheError (e : DfuError).

Inductive ModemAction :=
| MODEM_PROCESS_UPDATE (message : string)
| MODEM_WRITING_CLOSE
| MODEM_WRITING_FAIL (errorMsg : ErrorMsg)
| MODEM_WRITING_READY (fileName : string)
| MODEM_WRITING_START
| MODEM_WRITING_SUCCEED.

Definition MODEM_DFU_STARTING : string := "Starting...".

(** [hay.includes(needle)] *)
Fixpoint includes (needle hay : string) : bool :=
  String.prefix needle hay
  || match hay with
     | EmptyString => false
     | String _ hay' => includes needle hay'
     end.

(** [if (err)]: an object is truthy, a string unless it is empty. *)
Definition errTruthy (err : DfuError) : bool :=
  match err with
  | ErrorObject _ => true
  | ErrorValue text => truthyName text
  end.

(** [callback(err)]: the actions it dispatches, and whether it threw. *)
Definition dfuCallback (err : option DfuError) : list ModemAction * bool :=
  match err with
  | Some (ErrorObject message as e) =>
      let errorMsg := if truthyName message then Text message else TheError e in
      let errorMsg' :=
        if includes "0x4" message
        then Text ("Failed with internal error. "
                   +:+ "Please click Erase all button and try updating modem again.")
        else errorMsg in
      ([MODEM_WRITING_FAIL errorMsg'], false)
  | Some (ErrorValue text as e) =>
      if truthyName text then ([], true)   (* err.message is undefined *)
      else ([MODEM_WRITING_SUCCEED], false)
  | None => ([MODEM_WRITING_SUCCEED], false)
  end.

(** [performUpdate()], with what [programDFU] reports: the progress
    messages and the error of the final callback. *)
Definition performUpdate (progress : list string) (err : option DfuError)
    : list ModemAction * bool :=
  let final := dfuCallback err in
  ([MODEM_WRITING_START; MODEM_PROCESS_UPDATE MODEM_DFU_STARTING]
     ++ (MODEM_PROCESS_UPDATE <$> progress) ++ final.1,
   final.2).

(** [selectModemFirmware]: the callback of the open dialog, called with
    the chosen paths or [undefined]. *)
Definition selectModemFirmware (fileName : option (list string)) : list ModemAction :=
  match fileName with
  | Some (first :: _) => [MODEM_WRITING_READY first]
  | _ => []
  end.

(** A file system on which no file can be opened. *)
Definition failingFs : FileSystem :=
  mkFileSystem (λ _, inl "ENOENT") (λ _, inl "ENOENT") (λ _, inl "no data") id 2.

(** A file system on which every file was modified at time 5. *)
Definition touchedFs : FileSystem :=
  mkFileSystem (λ _, inr 5) (λ _, inr ":00000001FF") (λ _, inr sampleMap) id 6.

(** * Properties *)

(** ** Immutable.js lists *)

Section immutable_facts.
Context {A : Type} `{EqDecision A}.
Implicit Types l pre suf : list A.

Lemma indexOf_middle pre suf x :
  x ∉ pre → Immutable.indexOf (pre ++ x :: suf) x = Z.of_nat (length pre).
Proof.
  intros Hx. unfold Immutable.indexOf.
  rewrite list_find_app_r.
  - simpl. rewrite decide_True by done. simpl. f_equal.
  - apply list_find_None, Forall_forall. intros y Hy ->. done.
Qed.

Lemma remove_middle pre suf x :
  Immutable.remove (Z.of_nat (length pre)) (pre ++ x :: suf) = pre ++ suf.
Proof.
  unfold Immutable.remove, Immutable.wrapIndex.
  rewrite length_app. simpl.
  destruct (Z.ltb_spec (Z.of_nat (length pre)) 0); [lia|].
  rewrite andb_true_intro by (split; [apply Z.leb_le | apply Z.ltb_lt]; lia).
  rewrite Nat2Z.id. apply delete_middle.
Qed.

Lemma set_middle pre suf x y :
  Immutable.set (Z.of_nat (length pre)) y (pre ++ x :: suf) = pre ++ y :: suf.
Proof.
  unfold Immutable.set, Immutable.wrapIndex.
  rewrite length_app. simpl.
  destruct (Z.ltb_spec (Z.of_nat (length pre)) 0); [lia|].
  rewrite andb_true_intro by (split; [apply Z.leb_le | apply Z.ltb_lt]; lia).
  rewrite Nat2Z.id. rewrite insert_app_r_alt by done.
  by rewrite Nat.sub_diag.
Qed.

(** The index handed to [set] and [remove] is that of an element of the
    list: it lies inside the list. *)
Lemma indexOf_elem_in_range l x :
  x ∈ l → 0 ≤ Immutable.indexOf l x < Z.of_nat (length l).
Proof.
  intros Hx. unfold Immutable.indexOf.
  destruct (list_find_elem_of (λ y, y = x) l x Hx eq_refl) as [[i y] Hf].
  rewrite Hf. apply list_find_Some in Hf as (Hi & _).
  apply lookup_lt_Some in Hi. lia.
Qed.

(** A [forEach] that removes, by [indexOf], every element satisfying [p]
    from the list it runs over leaves the elements that do not satisfy
    [p], in their order. *)
Lemma forEach_remove_gen (p : A → bool) pre suf :
  Forall (λ x, p x = false) pre →
  fold_left (λ fr r, if p r then Immutable.remove (Immutable.indexOf fr r) fr else fr)
    suf (pre ++ suf)
  = pre ++ filter (λ x, p x = false) suf.
Proof.
  revert pre. induction suf as [|r suf IH]; intros pre Hpre; simpl.
  - done.
  - destruct (p r) eqn:Hr.
    + rewrite indexOf_middle, remove_middle.
      * rewrite IH by done. rewrite filter_cons_False by congruence. done.
      * intros Hin. rewrite Forall_forall in Hpre. specialize (Hpre _ Hin). congruence.
    + rewrite filter_cons_True by done.
      rewrite (cons_middle r pre suf), app_assoc.
      rewrite IH; [by rewrite <- app_assoc|].
      apply Forall_app; split; [done|]. by constructor.
Qed.

Lemma forEach_remove_filter (p : A → bool) l :
  Immutable.forEach l
    (λ fr r, if p r then Immutable.remove (Immutable.indexOf fr r) fr else fr) l
  = filter (λ x, p x = false) l.
Proof. apply (forEach_remove_gen p [] l). constructor. Qed.

Lemma find_Some_split (p : A → bool) l x :
  Immutable.find p l = Some x →
  ∃ pre suf, l = pre ++ x :: suf ∧ p x = true ∧ Forall (λ y, p y = false) pre.
Proof.
  unfold Immutable.find. intros Hf.
  apply fmap_Some in Hf as ([i y] & Hf & ->). simpl.
  apply list_find_Some in Hf as (Hi & Hp & Hlt).
  exists (take i l), (drop (S i) l). split_and!.
  - by rewrite take_drop_middle.
  - done.
  - apply Forall_forall. intros z Hz.
    apply list_elem_of_lookup in Hz as [j Hj].
    pose proof (lookup_lt_Some _ _ _ Hj) as Hlen. rewrite length_take in Hlen.
    rewrite lookup_take_lt in Hj by lia.
    specialize (Hlt j z Hj ltac:(lia)). by destruct (p z).
Qed.

Lemma find_None (p : A → bool) l :
  Immutable.find p l = None ↔ Forall (λ y, p y = false) l.
Proof.
  unfold Immutable.find. rewrite fmap_None, list_find_None.
  apply Forall_proper; [|done]. intros y. by destruct (p y).
Qed.

Lemma find_middle (p : A → bool) pre suf x :
  Forall (λ y, p y = false) pre → p x = true →
  Immutable.find p (pre ++ x :: suf) = Some x.
Proof.
  intros Hpre Hx. unfold Immutable.find.
  rewrite list_find_app_r.
  - simpl. rewrite decide_True by done. done.
  - apply list_find_None. eapply Forall_impl; [exact Hpre|].
    intros y Hy. simpl in Hy. congruence.
Qed.
End immutable_facts.

(** ** The application-merge pass *)

Section app_facts.
Variable tbl : option Region.

Lemma appScan_split l s e :
  fold_left (appScan tbl) l (s, e)
  = (fold_left appStartScan l s, fold_left (appEndScan tbl) l e).
Proof. revert s e. induction l as [|r l IH]; intros s e; simpl; [done|]. apply IH. Qed.

Lemma appRemove_filter l :
  Immutable.forEach l (appRemove tbl) l = filter (λ r, appBelowBl tbl r = false) l.
Proof. apply (forEach_remove_filter (appBelowBl tbl)). Qed.

(** The pass, whenever it dispatches, keeps the regions the removal loop
    does not select and appends the synthesized region. *)
Lemma mergeAppRegions_Some l out :
  mergeAppRegions tbl l = Some out ↔
  ∃ s e, is_Some tbl
    ∧ fold_left appStartScan l None = Some s
    ∧ fold_left (appEndScan tbl) l None = Some e
    ∧ out = filter (λ r, appBelowBl tbl r = false) l
              ++ [newRegion APPLICATION s (e - s) ColorAPPLICATION].
Proof.
  unfold mergeAppRegions, Immutable.forEach, Immutable.push.
  rewrite appScan_split. fold (Immutable.forEach l (appRemove tbl) l).
  rewrite appRemove_filter.
  destruct tbl as [bl|]; [|split; [done|intros (?&?&[? ?]&_); done]].
  destruct (fold_left appStartScan l None) as [s|];
    destruct (fold_left (appEndScan (Some bl)) l None) as [e|];
    split; try done; try (intros (?&?&?&?&?&?); done).
  - intros [= <-]. exists s, e. eauto.
  - intros (s'&e'&_&[= <-]&[= <-]&->). done.
Qed.

Lemma appEndScan_Some_stays l e : is_Some (fold_left (appEndScan tbl) l (Some e)).
Proof.
  revert e. induction l as [|r l IH]; intros e; simpl; [eauto|].
  unfold appEndScan at 2. destruct (_ && _); apply IH.
Qed.

(** The end address stays undetermined exactly when no fragment lies
    below the bootloader. *)
Lemma appEndScan_None l :
  fold_left (appEndScan tbl) l None = None ↔ Forall (λ r, appBelowBl tbl r = false) l.
Proof.
  induction l as [|r l IH]; simpl; [split; [constructor|done]|].
  unfold appEndScan at 2. simpl. rewrite andb_true_r.
  destruct (appBelowBl tbl r) eqn:Hr.
  - split.
    + intros Hn. destruct (appEndScan_Some_stays l (startAddress r + regionSize r)) as [? Hs].
      congruence.
    + intros Hf. apply Forall_cons in Hf as [? _]. congruence.
  - rewrite IH. split; [by constructor|]. by intros [_ ?]%Forall_cons.
Qed.

(** Over fragments that are all kept, whatever start address has been
    found is that of one of them. *)
Lemma appStartScan_kept l :
  Forall (λ r, appBelowBl tbl r = false) l →
  ∀ s0, (∀ v, s0 = Some v → ∃ r, named APPLICATION r = true
                     ∧ appBelowBl tbl r = false ∧ startAddress r = v) →
  ∀ v, fold_left appStartScan l s0 = Some v →
  ∃ r, named APPLICATION r = true ∧ appBelowBl tbl r = false ∧ startAddress r = v.
Proof.
  induction 1 as [|r l Hr _ IH]; intros s0 Hs0 v; simpl; [by apply Hs0|].
  apply IH. intros w. unfold appStartScan.
  destruct (named APPLICATION r) eqn:Hn; simpl; [|by apply Hs0].
  destruct (unset_or Z.gtb s0 (startAddress r)); [|by apply Hs0].
  intros [= <-]. eauto.
Qed.
End app_facts.

Section app_settled.
Variable tbl : option Region.

Lemma appStartScan_Some_stays l s : is_Some (fold_left appStartScan l (Some s)).
Proof.
  revert s. induction l as [|r l IH]; intros s; simpl; [eauto|].
  unfold appStartScan at 2. destruct (_ && _); apply IH.
Qed.

Lemma appStartScan_found l r :
  r ∈ l → named APPLICATION r = true → is_Some (fold_left appStartScan l None).
Proof.
  induction 1 as [r l|r r' l _ IH]; intros Hn; simpl.
  - unfold appStartScan at 2. rewrite Hn. simpl. apply appStartScan_Some_stays.
  - unfold appStartScan at 2. simpl. rewrite andb_true_r.
    destruct (named APPLICATION r'); [apply appStartScan_Some_stays | by apply IH].
Qed.

Lemma appBelowBl_named r : appBelowBl tbl r = true → named APPLICATION r = true.
Proof. unfold appBelowBl. destruct tbl; [|done]. by intros [? _]%andb_prop. Qed.

(** Where the pass does not dispatch, no fragment lies below the
    bootloader. *)
Lemma mergeAppRegions_None l :
  mergeAppRegions tbl l = None → Forall (λ r, appBelowBl tbl r = false) l.
Proof.
  intros Hn. destruct (fold_left (appEndScan tbl) l None) as [e|] eqn:He;
    [|by apply appEndScan_None].
  exfalso.
  assert (¬ Forall (λ r, appBelowBl tbl r = false) l) as Hex.
  { rewrite <- appEndScan_None. congruence. }
  apply not_Forall_Exists in Hex; [|apply _].
  apply Exists_exists in Hex as (r & Hr & Hq).
  apply not_false_is_true in Hq.
  destruct (appStartScan_found l r Hr (appBelowBl_named r Hq)) as [s Hs].
  assert (mergeAppRegions tbl l = Some
            (filter (λ r, appBelowBl tbl r = false) l
               ++ [newRegion APPLICATION s (e - s) ColorAPPLICATION])) as Hsome.
  { apply mergeAppRegions_Some. exists s, e. split_and!; try done.
    unfold appBelowBl in Hq. destruct tbl; [eauto|done]. }
  congruence.
Qed.

Lemma filter_kept_all (l : list Region) :
  Forall (λ r, appBelowBl tbl r = false) l →
  filter (λ r, appBelowBl tbl r = false) l = l.
Proof.
  induction 1 as [|r l Hr _ IH]; [done|]. rewrite filter_cons_True by done.
  by rewrite IH.
Qed.

(** The output of the pass is settled. *)
Lemma appPass_settled l : settled tbl (default l (mergeAppRegions tbl l)).
Proof.
  destruct (mergeAppRegions tbl l) as [out|] eqn:Hm; simpl.
  - apply mergeAppRegions_Some in Hm as (s & e & _ & _ & _ & ->).
    set (M := newRegion APPLICATION s (e - s) ColorAPPLICATION).
    assert (Forall (λ r, appBelowBl tbl r = false)
              (filter (λ r, appBelowBl tbl r = false) l)) as Hk.
    { apply Forall_forall. by intros r [? _]%list_elem_of_filter. }
    destruct (appBelowBl tbl M) eqn:HM.
    + right. exists (filter (λ r, appBelowBl tbl r = false) l), M. done.
    + left. apply Forall_app. split; [done|]. by constructor.
  - left. by apply mergeAppRegions_None.
Qed.

(** On a settled sequence the pass rewrites nothing. *)
Lemma settled_fixed l : settled tbl l → default l (mergeAppRegions tbl l) = l.
Proof.
  intros [Hall|(X & M & -> & HX & HM & Hc & Hf)].
  - destruct (mergeAppRegions tbl l) as [out|] eqn:Hm; [|done].
    apply mergeAppRegions_Some in Hm as (s & e & _ & _ & He & _).
    apply appEndScan_None in Hall. congruence.
  - assert (fold_left (appEndScan tbl) (X ++ [M]) None
            = Some (startAddress M + regionSize M)) as He.
    { rewrite fold_left_app. simpl.
      rewrite (proj2 (appEndScan_None tbl X) HX).
      unfold appEndScan. rewrite HM. done. }
    assert (fold_left appStartScan (X ++ [M]) None = Some (startAddress M)) as Hs.
    { rewrite fold_left_app. simpl.
      pose proof (appStartScan_kept tbl X HX None ltac:(done)) as Hv.
      unfold appStartScan at 1. rewrite (appBelowBl_named M HM). simpl.
      destruct (fold_left appStartScan X None) as [v|]; [|done].
      destruct (Hv v eq_refl) as (r & Hn & Hq & <-).
      unfold unset_or. simpl.
      unfold appBelowBl in *. destruct tbl as [bl|]; [|done].
      rewrite Hn in Hq. simpl in Hq.
      apply andb_prop in HM as [_ HM].
      destruct (Z.eqb_spec (startAddress r) 0); simpl; [done|].
      destruct (Z.gtb_spec (startAddress r) (startAddress M)); [done|].
      apply Z.ltb_lt in HM. apply Z.ltb_ge in Hq. exfalso. lia. }
    assert (mergeAppRegions tbl (X ++ [M]) = Some (X ++ [M])) as ->; [|done].
    apply mergeAppRegions_Some.
    exists (startAddress M), (startAddress M + regionSize M). split_and!; try done.
    + unfold appBelowBl in HM. destruct tbl; [eauto|done].
    + rewrite filter_app, (filter_kept_all X HX).
      rewrite filter_cons_False by congruence. rewrite filter_nil, app_nil_r.
      do 2 f_equal. apply appBelowBl_named in HM.
      unfold named in HM. apply bool_decide_eq_true in HM.
      destruct M as [n st sz c fn]; simpl in *; subst.
      unfold newRegion. f_equal. lia.
Qed.
End app_settled.

(** ** The bootloader-merge pass *)

Lemma named_BOOTLOADER_not_NONE r : named BOOTLOADER r = true → named NONE r = false.
Proof.
  unfold named. intros Hn%bool_decide_eq_true. apply bool_decide_eq_false. congruence.
Qed.

Lemma named_set_regionSize n r v : named n (set_regionSize r v) = named n r.
Proof. done. Qed.

Section bl_facts.
Variable di : DeviceInfo.

Lemma blRemove_filter l :
  Immutable.forEach l blRemove l = filter (λ r, named NONE r = false) l.
Proof. apply (forEach_remove_filter (named NONE)). Qed.

Lemma blScan_no_NONE bl l e0 :
  Forall (λ r, named NONE r = false) l → fold_left (blScan bl di) l e0 = e0.
Proof.
  induction 1 as [|r l Hr _ IH]; simpl; [done|].
  unfold blScan at 2, noneAfterBl. rewrite Hr. simpl. apply IH.
Qed.

Lemma filter_not_NONE_all (l : list Region) :
  Forall (λ r, named NONE r = false) (filter (λ r, named NONE r = false) l).
Proof. apply Forall_forall. by intros r [? _]%list_elem_of_filter. Qed.

Lemma Forall_filter_keep (P Q : Region → Prop) `{!∀ r, Decision (Q r)} (l : list Region) :
  Forall P l → Forall P (filter Q l).
Proof.
  rewrite !Forall_forall. intros HP r [_ Hr]%list_elem_of_filter. by apply HP.
Qed.

(** With the bootloader region found at its first position, the pass,
    whenever it dispatches, drops every NONE region and resizes the
    bootloader region where it stands. *)
Lemma mergeBlRegion_split bl pre suf :
  named BOOTLOADER bl = true →
  Forall (λ r, named BOOTLOADER r = false) pre →
  mergeBlRegion bl di (pre ++ bl :: suf)
  = (λ e, filter (λ r, named NONE r = false) pre
            ++ set_regionSize bl (e - startAddress bl)
            :: filter (λ r, named NONE r = false) suf)
    <$> fold_left (blScan bl di) (pre ++ bl :: suf) None.
Proof.
  intros Hbl Hpre. unfold mergeBlRegion, Immutable.forEach.
  destruct (fold_left (blScan bl di) (pre ++ bl :: suf) None) as [e|]; [|done].
  simpl. fold (Immutable.forEach (pre ++ bl :: suf) blRemove (pre ++ bl :: suf)).
  rewrite blRemove_filter, filter_app.
  rewrite filter_cons_True by by apply named_BOOTLOADER_not_NONE.
  rewrite indexOf_middle, set_middle; [done|].
  intros [_ Hin]%list_elem_of_filter.
  rewrite Forall_forall in Hpre. specialize (Hpre _ Hin). congruence.
Qed.

(** The two ways the pass can go. *)
Lemma blPass_cases l :
  blPass di l = l
  ∨ ∃ pre bl suf e,
      l = pre ++ bl :: suf
      ∧ named BOOTLOADER bl = true
      ∧ Forall (λ r, named BOOTLOADER r = false) pre
      ∧ fold_left (blScan bl di) l None = Some e
      ∧ blPass di l
        = filter (λ r, named NONE r = false) pre
            ++ set_regionSize bl (e - startAddress bl)
            :: filter (λ r, named NONE r = false) suf.
Proof.
  unfold blPass.
  destruct (Immutable.find (named BOOTLOADER) l) as [bl|] eqn:Hf; [|by left].
  destruct (mergeBlRegion bl di l) as [out|] eqn:Hm; [|by left]. simpl.
  apply find_Some_split in Hf as (pre & suf & -> & Hbl & Hpre).
  rewrite mergeBlRegion_split in Hm by done.
  apply fmap_Some in Hm as (e & He & ->).
  right. exists pre, bl, suf, e. done.
Qed.

(** After the pass has dispatched no NONE region is left, so a second run
    finds nothing to scan. *)
Lemma blPass_idem l : blPass di (blPass di l) = blPass di l.
Proof.
  destruct (blPass_cases l) as [Hl|(pre & bl & suf & e & _ & Hbl & Hpre & _ & Hout)].
  - by rewrite !Hl.
  - rewrite Hout.
    set (bl' := set_regionSize bl (e - startAddress bl)).
    set (fpre := filter (λ r, named NONE r = false) pre).
    set (fsuf := filter (λ r, named NONE r = false) suf).
    assert (Forall (λ r, named BOOTLOADER r = false) fpre) as Hfpre
      by by apply Forall_filter_keep.
    unfold blPass. rewrite (find_middle _ fpre fsuf bl') by done.
    rewrite mergeBlRegion_split by done.
    rewrite blScan_no_NONE; [done|].
    apply Forall_app. split; [apply filter_not_NONE_all|].
    constructor; [by apply named_BOOTLOADER_not_NONE | apply filter_not_NONE_all].
Qed.

(** The pass touches no APPLICATION region, so a settled sequence stays
    settled. *)
Lemma blPass_settled tbl l : settled tbl l → settled tbl (blPass di l).
Proof.
  intros Hs.
  destruct (blPass_cases l) as [Hl|(pre & bl & suf & e & Hl & Hbl & Hpre & _ & Hout)];
    [by rewrite Hl|].
  rewrite Hout. clear Hout.
  assert (∀ v, appBelowBl tbl (set_regionSize bl v) = false) as Hbl'.
  { intros v. unfold appBelowBl. destruct tbl; [|done].
    rewrite named_set_regionSize.
    unfold named in *. apply bool_decide_eq_true in Hbl.
    rewrite bool_decide_eq_false_2 by congruence. done. }
  destruct Hs as [Hall|(X & M & HXM & HX & HM & Hc & Hfn)].
  - left. subst l.
    apply Forall_app in Hall as [Hp Hs]. apply Forall_cons in Hs as [_ Hs].
    apply Forall_app. split; [by apply Forall_filter_keep|].
    constructor; [apply Hbl' | by apply Forall_filter_keep].
  - right.
    assert (∃ suf', suf = suf' ++ [M]) as [suf' ->].
    { destruct suf as [|z suf _] using rev_ind.
      - rewrite Hl in HXM. apply app_inj_tail in HXM as [_ ->].
        specialize (Hbl' (regionSize M)). exfalso.
        assert (set_regionSize M (regionSize M) = M) as Heq by by destruct M.
        rewrite Heq in Hbl'. congruence.
      - exists suf. rewrite Hl in HXM.
        change (pre ++ bl :: suf ++ [z]) with (pre ++ [bl] ++ suf ++ [z]) in HXM.
        rewrite !app_assoc in HXM.
        apply app_inj_tail in HXM as [_ ->]. done. }
    rewrite Hl in HXM. clear Hl.
    change (pre ++ bl :: suf' ++ [M]) with (pre ++ [bl] ++ suf' ++ [M]) in HXM.
    rewrite !app_assoc in HXM.
    apply app_inj_tail in HXM as [<- _].
    rewrite <- !app_assoc in HX. simpl in HX.
    apply Forall_app in HX as [Hp Hs]. apply Forall_cons in Hs as [_ Hs].
    rewrite filter_app.
    assert (named NONE M = false) as HMn.
    { apply (appBelowBl_named tbl) in HM. unfold named in *.
      apply bool_decide_eq_true in HM. apply bool_decide_eq_false. congruence. }
    rewrite (filter_cons_True _ M []) by done. rewrite filter_nil.
    exists (filter (λ r, named NONE r = false) pre
             ++ set_regionSize bl (e - startAddress bl)
             :: filter (λ r, named NONE r = false) suf'), M.
    split_and!; try done.
    + by rewrite <- app_assoc.
    + apply Forall_app. split; [by apply Forall_filter_keep|].
      constructor; [apply Hbl' | by apply Forall_filter_keep].
Qed.
End bl_facts.

(** ** Dispatching the passes *)

Lemma dispatch_updateFileAppRegions st :
  dispatch updateFileAppRegions st
  = mkAppState (appPass (target_regions st) (file_regions st))
      (file_loaded st) (file_memMaps st) (target_regions st) (target_deviceInfo st).
Proof.
  unfold dispatch, updateFileAppRegions, appPass.
  destruct (mergeAppRegions _ _); simpl; [done|]. by destruct st.
Qed.

Lemma dispatch_updateFileBlRegion st :
  dispatch updateFileBlRegion st
  = mkAppState (blPass (target_deviceInfo st) (file_regions st))
      (file_loaded st) (file_memMaps st) (target_regions st) (target_deviceInfo st).
Proof.
  unfold dispatch, updateFileBlRegion, blPass.
  destruct (Immutable.find _ _); [|by destruct st].
  destruct (mergeBlRegion _ _ _); simpl; [done|]. by destruct st.
Qed.

Lemma reconcile_regions st :
  reconcile st
  = mkAppState
      (blPass (target_deviceInfo st) (appPass (target_regions st) (file_regions st)))
      (file_loaded st) (file_memMaps st) (target_regions st) (target_deviceInfo st).
Proof.
  unfold reconcile.
  rewrite dispatch_updateFileBlRegion, dispatch_updateFileAppRegions. done.
Qed.

(** C6: for every state, running updateFileAppRegions then
    updateFileBlRegion a second time, with the target's regions and device
    information unchanged, leaves the state, and with it the region
    sequence, as the first run produced it. *)
Theorem reconcile_idempotent st : reconcile (reconcile st) = reconcile st.
Proof.
  rewrite !reconcile_regions. simpl. f_equal.
  set (tbl := Immutable.find (named BOOTLOADER) (target_regions st)).
  set (di := target_deviceInfo st).
  assert (settled tbl (blPass di (appPass (target_regions st) (file_regions st)))) as Hs.
  { apply blPass_settled. apply appPass_settled. }
  unfold appPass at 1. fold tbl. rewrite (settled_fixed tbl _ Hs).
  apply blPass_idem.
Qed.

(** ** The worked examples of the two passes *)

Lemma appPass_fired trs bl rs s e :
  Immutable.find (named BOOTLOADER) trs = Some bl →
  fold_left appStartScan rs None = Some s →
  fold_left (appEndScan (Some bl)) rs None = Some e →
  appPass trs rs
  = filter (λ r, appBelowBl (Some bl) r = false) rs
      ++ [newRegion APPLICATION s (e - s) ColorAPPLICATION].
Proof.
  intros Hf Hs He. unfold appPass. rewrite Hf.
  erewrite (proj2 (mergeAppRegions_Some (Some bl) rs _)); [done|].
  exists s, e. eauto.
Qed.

(** C4, as the code has it: from the fragments APPLICATION [0x1000,0x2000)
    and APPLICATION [0x3000,0x4000), whatever their colour and file names,
    on any target whose first BOOTLOADER region starts at 0x5000, whatever
    other regions the target has, updateFileAppRegions publishes exactly one
    APPLICATION region, which starts at 0x1000 and has size 0x3000, so that
    it ends at 0x4000; a BOOTLOADER region in the file's own sequence is
    carried along unchanged. *)
Theorem app_merge_example c1 f1 c2 f2 trs tbl fbl di :
  Immutable.find (named BOOTLOADER) trs = Some tbl →
  startAddress tbl = 0x5000 →
  name fbl = BOOTLOADER →
  let a1 := mkRegion APPLICATION 0x1000 0x1000 c1 f1 in
  let a2 := mkRegion APPLICATION 0x3000 0x1000 c2 f2 in
  file_regions (dispatch updateFileAppRegions (regionState [a1; a2] trs di))
    = [APP 0x1000 0x4000]
  ∧ file_regions (dispatch updateFileAppRegions (regionState [a1; a2; fbl] trs di))
    = [fbl; APP 0x1000 0x4000]
  ∧ startAddress (APP 0x1000 0x4000) = 0x1000
  ∧ regionSize (APP 0x1000 0x4000) = 0x3000
  ∧ endAddress (APP 0x1000 0x4000) = 0x4000.
Proof.
  intros Hf Hs Hn a1 a2. rewrite !dispatch_updateFileAppRegions. simpl.
  destruct tbl as [tn ts tsz tc tf], fbl as [fn fs fsz fc ff]. simpl in Hs, Hn.
  subst ts fn.
  split_and!; try done.
  - by rewrite (appPass_fired trs _ [a1; a2] 0x1000 0x4000 Hf).
  - by rewrite (appPass_fired trs _ [a1; a2; _] 0x1000 0x4000 Hf).
Qed.

Lemma app_merge_example_witness :
  file_regions (dispatch updateFileAppRegions
     (regionState [APP 0x1000 0x2000; APP 0x3000 0x4000]
        [newRegion SOFTDEVICE 0x0 0x1000 ColorSOFTDEVICE; BL 0x5000 0x6000;
         BL 0x2000 0x2800] nrf_di))
  = [APP 0x1000 0x4000].
Proof.
  apply (app_merge_example ColorAPPLICATION [] ColorAPPLICATION []
           [newRegion SOFTDEVICE 0x0 0x1000 ColorSOFTDEVICE; BL 0x5000 0x6000;
            BL 0x2000 0x2800]
           (BL 0x5000 0x6000) (BL 0x5000 0x6000) nrf_di); reflexivity.
Defined.

(** C4, as the claim words it, fails: the one APPLICATION region the pass
    publishes for these fragments does not end at 0x3000. *)
Lemma merged_app_region_not_0x3000 :
  ¬ ∃ r, filter (λ x, named APPLICATION x = true)
           (file_regions (dispatch updateFileAppRegions
              (regionState [APP 0x1000 0x2000; APP 0x3000 0x4000]
                 [BL 0x5000 0x6000] (mkDeviceInfo 0x8000 0x1000 0x10001000))))
         = [r]
       ∧ startAddress r = 0x1000 ∧ endAddress r = 0x3000.
Proof. intros (r & [= <-] & _ & He). vm_compute in He. done. Qed.

(** C5: from BOOTLOADER [0x7000,0x7100) and NONE [0x7100,0x7200), whatever
    their colour and file names, on a device with romSize 0x8000,
    updateFileBlRegion publishes the BOOTLOADER region alone, resized to
    0x200 bytes so that it covers [0x7000,0x7200). *)
Theorem bl_merge_example bc bf nc nf trs psz uicr :
  let bl := mkRegion BOOTLOADER 0x7000 0x100 bc bf in
  let no := mkRegion NONE 0x7100 0x100 nc nf in
  let out := file_regions (dispatch updateFileBlRegion
               (regionState [bl; no] trs (mkDeviceInfo 0x8000 psz uicr))) in
  out = [mkRegion BOOTLOADER 0x7000 0x200 bc bf]
  ∧ Forall (λ r, startAddress r = 0x7000 ∧ endAddress r = 0x7200
                 ∧ name r = BOOTLOADER) out
  ∧ no ∉ out.
Proof.
  intros bl no out.
  assert (out = [mkRegion BOOTLOADER 0x7000 0x200 bc bf]) as ->.
  { unfold out. rewrite dispatch_updateFileBlRegion. simpl. unfold blPass.
    rewrite (find_middle _ [] [no] bl) by done.
    by rewrite (mergeBlRegion_split _ bl [] [no]). }
  split_and!; [done| |].
  - by repeat constructor.
  - intros Hin%list_elem_of_singleton. done.
Qed.

(** C1 at two inputs the pass can receive.  With an APPLICATION fragment at
    address 0 followed by another one, the zero start address counts as
    undetermined and is overwritten: the synthesized region starts at 0x2000,
    not at the minimum 0.  With two adjacent fragments, the end address of
    the first is compared with the start address of the second by [<], so
    the second fragment's end is not taken: the synthesized region ends at
    0x2000, not at the maximum 0x3000.  Both fragments are removed all the
    same. *)
Theorem updateFileAppRegions_misses_bounds :
  let bl := BL 0x5000 0x6000 in
  let di := mkDeviceInfo 0x8000 0x1000 0x10001000 in
  (file_regions (dispatch updateFileAppRegions
     (regionState [APP 0 0x1000; APP 0x2000 0x3000] [bl] di))
   = [APP 0x2000 0x3000]
   ∧ appMergeSpec bl [APP 0 0x1000; APP 0x2000 0x3000] = Some [APP 0 0x3000])
  ∧ (file_regions (dispatch updateFileAppRegions
       (regionState [APP 0x1000 0x2000; APP 0x2000 0x3000] [bl] di))
     = [APP 0x1000 0x2000]
     ∧ appMergeSpec bl [APP 0x1000 0x2000; APP 0x2000 0x3000]
       = Some [APP 0x1000 0x3000]).
Proof. vm_compute. done. Qed.

(** C2 at two inputs the pass can receive.  A NONE region that lies before
    the bootloader region, or one that ends at or beyond romSize, is not
    scanned, and yet the removal loop, which tests the name alone, drops
    it. *)
Theorem updateFileBlRegion_drops_unscanned_NONE :
  let bl := BL 0x7000 0x7100 in
  let di := mkDeviceInfo 0x8000 0x1000 0x10001000 in
  (noneAfterBl bl di (NO 0x1000 0x1100) = false
   ∧ file_regions (dispatch updateFileBlRegion
       (regionState [NO 0x1000 0x1100; bl; NO 0x7100 0x7200] [] di))
     = [BL 0x7000 0x7200]
   ∧ blMergeSpec bl di [NO 0x1000 0x1100; bl; NO 0x7100 0x7200]
     = Some [NO 0x1000 0x1100; BL 0x7000 0x7200])
  ∧ (noneAfterBl bl di (NO 0x8000 0x8100) = false
     ∧ file_regions (dispatch updateFileBlRegion
         (regionState [bl; NO 0x7100 0x7200; NO 0x8000 0x8100] [] di))
       = [BL 0x7000 0x7200]
     ∧ blMergeSpec bl di [bl; NO 0x7100 0x7200; NO 0x8000 0x8100]
       = Some [BL 0x7000 0x7200; NO 0x8000 0x8100]).
Proof. vm_compute. done. Qed.

(** ** Disjointness of the region sequence *)

Lemma appStartScan_origin l : ∀ s0 v,
  fold_left appStartScan l s0 = Some v →
  s0 = Some v ∨ ∃ r, r ∈ l ∧ named APPLICATION r = true ∧ startAddress r = v.
Proof.
  induction l as [|r l IH]; intros s0 v Hf; simpl in Hf; [by left|].
  apply IH in Hf as [Hs|(a & Ha & Hn & Hv)].
  - unfold appStartScan in Hs. destruct (named APPLICATION r) eqn:Hn; simpl in Hs.
    + destruct (unset_or Z.gtb s0 (startAddress r)); [|by left].
      right. exists r. split_and!; [apply list_elem_of_here|done|congruence].
    + by left.
  - right. exists a. split_and!; [by apply list_elem_of_further|done..].
Qed.

Lemma appEndScan_origin tbl l : ∀ e0 v,
  fold_left (appEndScan tbl) l e0 = Some v →
  e0 = Some v ∨ ∃ r, r ∈ l ∧ appBelowBl tbl r = true ∧ endAddress r = v.
Proof.
  induction l as [|r l IH]; intros e0 v Hf; simpl in Hf; [by left|].
  apply IH in Hf as [Hs|(a & Ha & Hn & Hv)].
  - unfold appEndScan in Hs. destruct (appBelowBl tbl r) eqn:Hn; simpl in Hs.
    + destruct (unset_or Z.ltb e0 (startAddress r)); [|by left].
      right. exists r. split_and!; [apply list_elem_of_here|done|].
      unfold endAddress. congruence.
    + by left.
  - right. exists a. split_and!; [by apply list_elem_of_further|done..].
Qed.

Lemma blScan_origin bl di l : ∀ e0 v,
  fold_left (blScan bl di) l e0 = Some v →
  e0 = Some v ∨ ∃ r, r ∈ l ∧ noneAfterBl bl di r = true ∧ endAddress r = v.
Proof.
  induction l as [|r l IH]; intros e0 v Hf; simpl in Hf; [by left|].
  apply IH in Hf as [Hs|(a & Ha & Hn & Hv)].
  - unfold blScan in Hs. destruct (noneAfterBl bl di r) eqn:Hn; simpl in Hs.
    + destruct (unset_or Z.leb e0 (startAddress r)); [|by left].
      right. exists r. split_and!; [apply list_elem_of_here|done|].
      unfold endAddress. congruence.
    + by left.
  - right. exists a. split_and!; [by apply list_elem_of_further|done..].
Qed.

Lemma blScan_Some_stays bl di l e : is_Some (fold_left (blScan bl di) l (Some e)).
Proof.
  revert e. induction l as [|r l IH]; intros e; simpl; [eauto|].
  unfold blScan at 2. destruct (_ && _); apply IH.
Qed.

Lemma blScan_None bl di l :
  fold_left (blScan bl di) l None = None ↔ Forall (λ r, noneAfterBl bl di r = false) l.
Proof.
  induction l as [|r l IH]; simpl; [split; [constructor|done]|].
  unfold blScan at 2. simpl. rewrite andb_true_r.
  destruct (noneAfterBl bl di r) eqn:Hr.
  - split.
    + intros Hn. destruct (blScan_Some_stays bl di l (startAddress r + regionSize r)) as [? Hs].
      congruence.
    + intros Hf. apply Forall_cons in Hf as [? _]. congruence.
  - rewrite IH. split; [by constructor|]. by intros [_ ?]%Forall_cons.
Qed.

Lemma appBelowBl_Some bl r :
  appBelowBl (Some bl) r = true ↔ name r = APPLICATION ∧ startAddress r < startAddress bl.
Proof.
  unfold appBelowBl, named. rewrite andb_true_iff, bool_decide_eq_true, Z.ltb_lt. done.
Qed.

Lemma noneAfterBl_iff bl di r :
  noneAfterBl bl di r = true ↔
  name r = NONE ∧ startAddress bl < startAddress r ∧ endAddress r < romSize di.
Proof.
  unfold noneAfterBl, named, endAddress.
  rewrite !andb_true_iff, bool_decide_eq_true, Z.gtb_lt, Z.ltb_lt. tauto.
Qed.

Lemma intersects_sym a b : intersects a b → intersects b a.
Proof. unfold intersects. lia. Qed.

Lemma intersects_point a b :
  intersects a b ↔
  ∃ x, (startAddress a ≤ x < endAddress a) ∧ (startAddress b ≤ x < endAddress b).
Proof.
  unfold intersects. split.
  - intros H. exists (Z.max (startAddress a) (startAddress b)). lia.
  - intros (x & Ha & Hb). lia.
Qed.

Lemma pairwiseDisjoint_app l1 l2 :
  pairwiseDisjoint (l1 ++ l2) ↔
  pairwiseDisjoint l1 ∧ pairwiseDisjoint l2
  ∧ Forall (λ a, Forall (λ b, ¬ intersects a b) l2) l1.
Proof.
  induction l1 as [|a l1 IH]; simpl.
  - split; [intros ?; split_and!; [done|done|constructor] | by intros (_ & ? & _)].
  - rewrite Forall_app, IH, Forall_cons. tauto.
Qed.

Lemma pairwiseDisjoint_filter (P : Region → Prop) `{!∀ r, Decision (P r)} l :
  pairwiseDisjoint l → pairwiseDisjoint (filter P l).
Proof.
  induction l as [|a l IH]; simpl; [done|]. intros [Ha Hl].
  rewrite filter_cons. destruct (decide (P a)); [|by apply IH].
  simpl. split; [|by apply IH].
  apply Forall_forall. intros b [_ Hb]%list_elem_of_filter.
  rewrite Forall_forall in Ha. by apply Ha.
Qed.

Lemma disjointRegions_pairwise l : disjointRegions l ↔ pairwiseDisjoint l.
Proof.
  unfold disjointRegions. induction l as [|a l IH]; simpl.
  - split; [done|]. intros _ i j x y _ Hi. by rewrite lookup_nil in Hi.
  - split.
    + intros H. split.
      * apply Forall_lookup. intros k b Hk. by apply (H 0%nat (S k)).
      * apply IH. intros i j x y Hij Hi Hj. by apply (H (S i) (S j)); [lia|..].
    + intros [Ha Hl] i j x y Hij Hi Hj.
      rewrite Forall_lookup in Ha.
      destruct i as [|i], j as [|j]; simpl in *; simplify_eq.
      * by apply (Ha j).
      * intros Hx%intersects_sym. by apply (Ha i x).
      * apply (proj2 IH Hl i j); [lia|done..].
Qed.

Lemma appPass_origin trs rs :
  appPass trs rs = rs
  ∨ ∃ a b, a ∈ rs ∧ b ∈ rs ∧ named APPLICATION a = true
      ∧ appBelowBl (Immutable.find (named BOOTLOADER) trs) b = true
      ∧ appPass trs rs
        = filter (λ r, appBelowBl (Immutable.find (named BOOTLOADER) trs) r = false) rs
            ++ [newRegion APPLICATION (startAddress a) (endAddress b - startAddress a)
                  ColorAPPLICATION].
Proof.
  unfold appPass.
  destruct (mergeAppRegions _ rs) as [out|] eqn:Hm; [|by left].
  apply mergeAppRegions_Some in Hm as (s & e & _ & Hs & He & ->).
  apply appStartScan_origin in Hs as [?|(a & Ha & Hna & <-)]; [done|].
  apply appEndScan_origin in He as [?|(b & Hb & Hnb & <-)]; [done|].
  right. exists a, b. done.
Qed.

Lemma blPass_origin di l :
  blPass di l = l
  ∨ ∃ pre bl suf n,
      l = pre ++ bl :: suf
      ∧ Immutable.find (named BOOTLOADER) l = Some bl
      ∧ n ∈ l ∧ noneAfterBl bl di n = true
      ∧ blPass di l
        = filter (λ r, named NONE r = false) pre
            ++ set_regionSize bl (endAddress n - startAddress bl)
            :: filter (λ r, named NONE r = false) suf.
Proof.
  destruct (blPass_cases di l) as [?|(pre & bl & suf & e & Hl & Hbl & Hpre & He & Hp)];
    [by left|].
  apply blScan_origin in He as [?|(n & Hn & Hq & <-)]; [done|].
  right. exists pre, bl, suf, n. split_and!; try done.
  rewrite Hl. by apply find_middle.
Qed.

(** The application-merge pass does not change which BOOTLOADER region of
    the file comes first. *)
Lemma find_BOOTLOADER_appPass trs rs :
  Immutable.find (named BOOTLOADER) (appPass trs rs)
  = Immutable.find (named BOOTLOADER) rs.
Proof.
  destruct (appPass_origin trs rs) as [->|(a & b & _ & _ & _ & _ & ->)]; [done|].
  set (tbl := Immutable.find (named BOOTLOADER) trs).
  set (M := newRegion _ _ _ _).
  destruct (Immutable.find (named BOOTLOADER) rs) as [bl|] eqn:Hf.
  - apply find_Some_split in Hf as (pre & suf & -> & Hbl & Hpre).
    assert (appBelowBl tbl bl = false) as Hk.
    { destruct (appBelowBl tbl bl) eqn:Hq; [|done].
      apply appBelowBl_named in Hq. unfold named in *.
      apply bool_decide_eq_true in Hq, Hbl. congruence. }
    rewrite filter_app, filter_cons_True by done. rewrite <- app_assoc. simpl.
    apply find_middle; [|done]. by apply Forall_filter_keep.
  - apply find_None. apply find_None in Hf.
    apply Forall_app. split; [by apply Forall_filter_keep|]. by constructor.
Qed.

(** Replacing one region of a non-intersecting sequence by a region that
    intersects none of the others, and filtering the others, leaves the
    sequence non-intersecting. *)
Lemma pairwiseDisjoint_replace (P : Region → Prop) `{!∀ r, Decision (P r)}
    pre x suf w :
  pairwiseDisjoint (pre ++ x :: suf) →
  (∀ k, k ∈ pre ++ suf → P k → ¬ intersects k w) →
  pairwiseDisjoint (filter P pre ++ w :: filter P suf).
Proof.
  intros Hd Hw. apply pairwiseDisjoint_app in Hd as (Hp & Hs & Hps).
  simpl in Hs. destruct Hs as [_ Hs].
  apply pairwiseDisjoint_app. split_and!.
  - by apply pairwiseDisjoint_filter.
  - simpl. split; [|by apply pairwiseDisjoint_filter].
    apply Forall_forall. intros k [Hk Hin]%list_elem_of_filter Hi.
    apply (Hw k); [apply elem_of_app; by right|done|by apply intersects_sym].
  - apply Forall_forall. intros k [Hk Hin]%list_elem_of_filter. constructor.
    + apply Hw; [apply elem_of_app; by left|done].
    + rewrite Forall_forall in Hps. specialize (Hps k Hin).
      apply Forall_cons in Hps as [_ Hps].
      apply Forall_forall. intros y [_ Hy]%list_elem_of_filter.
      rewrite Forall_forall in Hps. by apply Hps.
Qed.

(** A region that stands twice in a non-intersecting sequence is empty. *)
Lemma pairwiseDisjoint_twice pre x suf :
  pairwiseDisjoint (pre ++ x :: suf) → x ∈ pre ++ suf → ¬ intersects x x.
Proof.
  intros Hd Hin. apply pairwiseDisjoint_app in Hd as (_ & Hs & Hps).
  simpl in Hs. destruct Hs as [Hs _].
  apply elem_of_app in Hin as [Hin|Hin].
  - rewrite Forall_forall in Hps. specialize (Hps x Hin).
    by apply Forall_cons in Hps as [? _].
  - rewrite Forall_forall in Hs. by apply Hs.
Qed.

(** C3, as the code has it: the passes keep a pairwise non-intersecting
    region sequence pairwise non-intersecting when the file's regions leave
    room for what the passes write, a condition on the regions before the
    passes: no region the application pass keeps has an address in a span
    from the start of an APPLICATION region to the end of an APPLICATION
    region below the target's bootloader; no region other than the NONE
    regions and the file's first BOOTLOADER region has an address in a span
    from that region's start to the end of a NONE region that starts after
    it and ends before romSize; and no span of the first kind shares an
    address with one of the second kind.  The passes do not look at the
    addresses of the regions they keep. *)
Theorem reconcile_keeps_disjoint st :
  disjointRegions (file_regions st) →
  appSpansClear (target_regions st) (file_regions st) →
  blSpansClear (target_deviceInfo st) (file_regions st) →
  spansApart (target_regions st) (target_deviceInfo st) (file_regions st) →
  disjointRegions (file_regions (reconcile st)).
Proof.
  rewrite reconcile_regions. simpl. rewrite !disjointRegions_pairwise.
  set (rs := file_regions st). set (trs := target_regions st).
  set (di := target_deviceInfo st).
  set (tbl := Immutable.find (named BOOTLOADER) trs).
  unfold appSpansClear, blSpansClear, spansApart. fold tbl. simpl.
  intros Hrs Happ Hbl Hcross.
  (* what the application pass leaves *)
  assert (pairwiseDisjoint (appPass trs rs)
          ∧ ∀ k, k ∈ appPass trs rs →
              k ∈ rs
              ∨ ∃ a b, a ∈ rs ∧ b ∈ rs ∧ named APPLICATION a = true
                  ∧ appBelowBl tbl b = true
                  ∧ k = newRegion APPLICATION (startAddress a)
                          (endAddress b - startAddress a) ColorAPPLICATION)
    as [H1 Hfrom].
  { destruct (appPass_origin trs rs) as [->|(a & b & Ha & Hb & Hna & Hnb & ->)];
      [split; [done|by left]|]. fold tbl. split.
    - apply pairwiseDisjoint_app. split_and!.
      + by apply pairwiseDisjoint_filter.
      + simpl. split; [constructor|done].
      + apply Forall_forall. intros k [Hk Hin]%list_elem_of_filter. constructor; [|done].
        rewrite Forall_forall in Happ. specialize (Happ a Ha Hna).
        rewrite Forall_forall in Happ. specialize (Happ b Hb Hnb).
        rewrite Forall_forall in Happ. specialize (Happ k Hin Hk).
        unfold spanHits in Happ. unfold intersects, endAddress in *. simpl. lia.
    - intros k [[_ Hin]%list_elem_of_filter|Hk%list_elem_of_singleton]%elem_of_app;
        [by left|]. right. exists a, b. done. }
  (* the bootloader pass on it *)
  destruct (blPass_origin di (appPass trs rs))
    as [->|(pre & bl & suf & n & Hsplit & Hfind & Hn & Hq & ->)]; [done|].
  rewrite find_BOOTLOADER_appPass in Hfind. fold rs in Hfind.
  rewrite Hfind in Hbl, Hcross.
  assert (n ∈ rs) as Hnrs.
  { destruct (Hfrom n Hn) as [?|(a & b & _ & _ & _ & _ & ->)]; [done|].
    apply noneAfterBl_iff in Hq as [Hq _]. done. }
  rewrite Hsplit in H1.
  apply (pairwiseDisjoint_replace _ pre bl suf); [done|].
  intros k Hk Hnone.
  assert (k ∈ appPass trs rs) as Hkin.
  { rewrite Hsplit. apply elem_of_app in Hk as [?|?]; apply elem_of_app;
      [by left|right; by apply list_elem_of_further]. }
  destruct (Hfrom k Hkin) as [Hkrs|(a & b & Ha & Hb & Hna & Hnb & ->)].
  - destruct (decide (k = bl)) as [->|Hne].
    + pose proof (pairwiseDisjoint_twice _ _ _ H1 Hk) as Hempty.
      unfold intersects, endAddress in *. simpl. lia.
    + rewrite Forall_forall in Hbl. specialize (Hbl n Hnrs Hq).
      rewrite Forall_forall in Hbl. specialize (Hbl k Hkrs Hnone Hne).
      unfold spanHits in Hbl. unfold intersects, endAddress in *. simpl. lia.
  - rewrite Forall_forall in Hcross. specialize (Hcross a Ha Hna).
    rewrite Forall_forall in Hcross. specialize (Hcross b Hb Hnb).
    rewrite Forall_forall in Hcross. specialize (Hcross n Hnrs Hq).
    unfold intersects, endAddress in *. simpl. lia.
Qed.

Lemma reconcile_keeps_disjoint_witness :
  disjointRegions (file_regions paddedState)
  ∧ disjointRegions (file_regions (reconcile paddedState)).
Proof.
  assert (disjointRegions (file_regions paddedState)) as Hd.
  { apply disjointRegions_pairwise. by apply (bool_decide_unpack _). }
  split; [exact Hd|].
  apply (reconcile_keeps_disjoint paddedState Hd).
  - by apply (bool_decide_unpack _).
  - by apply (bool_decide_unpack _).
  - by apply (bool_decide_unpack _).
Defined.

(** C3, as the claim words it, fails: the regions of [gapState] do not
    intersect, and after the two passes the synthesized APPLICATION region
    [0x1000,0x4000) covers the NONE region [0x2000,0x3000) that the passes
    kept. *)
Lemma reconcile_makes_regions_intersect :
  disjointRegions (file_regions gapState)
  ∧ file_regions (reconcile gapState) = [NO 0x2000 0x3000; APP 0x1000 0x4000]
  ∧ ¬ disjointRegions (file_regions (reconcile gapState)).
Proof.
  split_and!.
  - apply disjointRegions_pairwise. by apply (bool_decide_unpack _).
  - by vm_compute.
  - intros Hd. apply (Hd 0%nat 1%nat (NO 0x2000 0x3000) (APP 0x1000 0x4000)).
    + done.
    + by vm_compute.
    + by vm_compute.
    + by vm_compute.
Qed.

(** ** Data outside the user-writable areas *)











Lemma outsideScan_fold di overlaps acc :
  fold_left (outsideScan di) overlaps acc
  = acc ++ ((λ en, renderBlock en.1 (overlapEnd en.1 en.2))
              <$> filter (λ en, outsideFlash di en.1 (overlapEnd en.1 en.2) = true) overlaps).
Proof.
  revert acc. induction overlaps as [|[s o] l IH]; intros acc; simpl.
  - by rewrite app_nil_r.
  - rewrite IH, filter_cons. simpl.
    destruct (outsideFlash di s (overlapEnd s o)) eqn:Hf.
    + rewrite decide_True by done. simpl. by rewrite <- app_assoc.
    + rewrite decide_False by done. done.
Qed.

(** With some block flagged, the warning that lists the blocks is
    dispatched. *)
Lemma updateFileRegions_warns overlapMemoryMaps getFileRegions st :
  let blocks := outsideFlashBlocks (target_deviceInfo st)
                  (overlapMemoryMaps (file_memMaps st)) in
  blocks ≠ [] →
  FILE_WARNING_ADD ("There is data outside the user-writable areas ("
                      +:+ join ", " blocks +:+ ").")
    ∈ updateFileRegions overlapMemoryMaps getFileRegions st.
Proof.
  intros blocks Hne. unfold updateFileRegions. fold blocks.
  destruct blocks; [done|].
  apply elem_of_app. right. apply elem_of_app. right.
  apply elem_of_app. left. apply list_elem_of_singleton. done.
Qed.



(** ** The most-recently-used list *)

Lemma indexOf_absent (files : list string) filename :
  Immutable.indexOf files filename = -1 ↔ filename ∉ files.
Proof.
  unfold Immutable.indexOf.
  destruct (list_find (λ y, y = filename) files) as [[i y]|] eqn:Hf.
  - apply list_find_Some in Hf as (Hi & -> & _).
    split; [lia|]. intros Hn. exfalso. apply Hn. by eapply list_elem_of_lookup_2.
  - split; [|done]. intros _ Hin.
    apply list_find_None in Hf. rewrite Forall_forall in Hf. by apply (Hf filename).
Qed.

Lemma addMruFile_new files filename :
  filename ∉ files → addMruFile filename files = take 10 (filename :: files).
Proof.
  intros Hn. unfold addMruFile.
  rewrite (proj2 (indexOf_absent files filename) Hn). done.
Qed.

Lemma addMruFile_known files filename :
  filename ∈ files → addMruFile filename files = files.
Proof.
  intros Hin. unfold addMruFile.
  destruct (Z.eqb_spec (Immutable.indexOf files filename) (-1)) as [He|]; [|done].
  apply indexOf_absent in He. done.
Qed.

Lemma occurrences_absent filename files :
  filename ∉ files → occurrences filename files = 0%nat.
Proof.
  intros Hn. unfold occurrences.
  induction files as [|f files IH]; [done|].
  rewrite filter_cons, decide_False.
  - apply IH. intros Hin. apply Hn. by apply list_elem_of_further.
  - intros ->. apply Hn. apply list_elem_of_here.
Qed.

Lemma occurrences_NoDup filename files :
  NoDup files → filename ∈ files → occurrences filename files = 1%nat.
Proof.
  unfold occurrences. induction 1 as [|f files Hf Hnd IH]; intros Hin.
  - by apply elem_of_nil in Hin.
  - rewrite filter_cons. destruct (decide (f = filename)) as [->|Hne].
    + simpl. f_equal. by apply occurrences_absent.
    + apply IH. apply elem_of_cons in Hin as [?|?]; [congruence|done].
Qed.

(** The two writers of the list keep it within ten distinct paths. *)
Lemma addMruFile_inv files filename :
  (length files ≤ 10)%nat → NoDup files →
  (length (addMruFile filename files) ≤ 10)%nat ∧ NoDup (addMruFile filename files).
Proof.
  intros Hlen Hnd. destruct (decide (filename ∈ files)) as [Hin|Hnin].
  - by rewrite (addMruFile_known files filename Hin).
  - rewrite (addMruFile_new files filename Hnin). split.
    + rewrite length_take. lia.
    + apply (sublist_NoDup _ (filename :: files)); [by constructor|].
      apply sublist_take.
Qed.

(** C9, as the code has it: on a list of at most 10 distinct paths, the
    list after addMruFile has at most 10 paths and holds the inserted path
    exactly once; a path that was not in the list before is put first. *)
Theorem addMruFile_spec files filename :
  (length files ≤ 10)%nat → NoDup files →
  (length (addMruFile filename files) ≤ 10)%nat
  ∧ occurrences filename (addMruFile filename files) = 1%nat
  ∧ (filename ∉ files → head (addMruFile filename files) = Some filename).
Proof.
  intros Hlen Hnd.
  destruct (addMruFile_inv files filename Hlen Hnd) as [Hlen' Hnd'].
  split_and!; [done| |].
  - apply occurrences_NoDup; [done|].
    destruct (decide (filename ∈ files)) as [Hin|Hnin].
    + by rewrite (addMruFile_known files filename Hin).
    + rewrite (addMruFile_new files filename Hnin). simpl. apply list_elem_of_here.
  - intros Hnin. by rewrite (addMruFile_new files filename Hnin).
Qed.

Lemma addMruFile_spec_witness :
  (length (addMruFile "c.hex" ["a.hex"; "b.hex"]) ≤ 10)%nat
  ∧ occurrences "c.hex" (addMruFile "c.hex" ["a.hex"; "b.hex"]) = 1%nat
  ∧ head (addMruFile "c.hex" ["a.hex"; "b.hex"]) = Some "c.hex".
Proof.
  destruct (addMruFile_spec ["a.hex"; "b.hex"] "c.hex") as (Hlen & Hocc & Hhead).
  - simpl. lia.
  - apply (bool_decide_unpack _). reflexivity.
  - split_and!; [exact Hlen | exact Hocc |].
    apply Hhead. apply (bool_decide_unpack _). reflexivity.
Defined.

(** C9, as the claim words it, fails: a path that is already in the list
    is not moved to the front. *)
Lemma addMruFile_keeps_place :
  addMruFile "b.hex" ["a.hex"; "b.hex"] = ["a.hex"; "b.hex"]
  ∧ head (addMruFile "b.hex" ["a.hex"; "b.hex"]) ≠ Some "b.hex".
Proof. split; [reflexivity|]. by vm_compute. Qed.

(** So does the removal of a path. *)
Lemma removeMruFile_inv files filename :
  (length files ≤ 10)%nat → NoDup files →
  (length (removeMruFile filename files) ≤ 10)%nat ∧ NoDup (removeMruFile filename files).
Proof.
  intros Hlen Hnd. unfold removeMruFile. split.
  - pose proof (length_filter (λ file, file ≠ filename) files). lia.
  - by apply NoDup_filter.
Qed.

(** ** parseOneFile *)

(** C8, as the code has it: asked for a path that is already among the
    loaded files, parseOneFile returns at once; its promise resolves, it
    dispatches nothing and reports no error, and the store (the loaded map,
    the memMaps sequence and everything else) and the most-recently-used list
    stay as they were. *)
Theorem parseOneFile_already_loaded fs filePath st mru :
  is_Some (file_loaded st !! filePath) →
  parseOneFile fs filePath st mru = mkParseResult Resolved [] mru
  ∧ ¬ failed (parseOneFile fs filePath st mru)
  ∧ afterParse (parseOneFile fs filePath st mru) st = st.
Proof.
  intros He. unfold parseOneFile, isLoaded.
  rewrite (bool_decide_eq_true_2 _ He). simpl.
  split_and!; [done| |done].
  intros [Hr|[m Hm]]; [done|]. simpl in Hm. by apply elem_of_nil in Hm.
Qed.

Lemma parseOneFile_already_loaded_witness :
  afterParse (parseOneFile sampleFs "a.hex" loadedState ["a.hex"]) loadedState
  = loadedState.
Proof.
  apply (parseOneFile_already_loaded sampleFs "a.hex" loadedState ["a.hex"]).
  by apply (bool_decide_unpack _).
Defined.

(** C8, as the claim words it, fails: loading a path that is already in the
    store does not fail; the promise resolves and no error is reported. *)
Lemma parseOneFile_duplicate_does_not_fail :
  is_Some (file_loaded loadedState !! "a.hex")
  ∧ outcome (parseOneFile sampleFs "a.hex" loadedState ["a.hex"]) = Resolved
  ∧ ¬ failed (parseOneFile sampleFs "a.hex" loadedState ["a.hex"]).
Proof.
  split_and!.
  - by apply (bool_decide_unpack _).
  - reflexivity.
  - intros [Hr|[m Hm]].
    + vm_compute in Hr. done.
    + vm_compute in Hm. by apply elem_of_nil in Hm.
Qed.

Lemma mcubootScan_fold filePath memMap acts :
  fold_left (mcubootScan filePath) memMap acts
  = acts ++ ((λ _, MCUBOOT_FILE_KNOWN (Some filePath))
               <$> filter (λ en, en.1 = MCUBOOT_FW_START_ADDRESS) memMap).
Proof.
  revert acts. induction memMap as [|[address block] l IH]; intros acts; simpl.
  - by rewrite app_nil_r.
  - rewrite IH, filter_cons. simpl.
    destruct (Z.eqb_spec address MCUBOOT_FW_START_ADDRESS) as [He|Hne].
    + rewrite decide_True by done. simpl. by rewrite <- app_assoc.
    + rewrite decide_False by done. done.
Qed.

Lemma parseOneFile_parsed fs filePath st mru memMap :
  parsedAs fs filePath st memMap →
  ∃ loaded' memMaps',
    dispatched (parseOneFile fs filePath st mru)
    = ((λ _, MCUBOOT_FILE_KNOWN (Some filePath))
         <$> filter (λ en, en.1 = MCUBOOT_FW_START_ADDRESS) memMap)
      ++ [FILE_PARSE loaded' memMaps'; THUNK_updateFileRegions;
          THUNK_updateTargetWritable].
Proof.
  intros (Hl & mtime & data & Hs & Hr & Hx). unfold parseOneFile.
  rewrite Hl, Hs, Hr, Hx. simpl. rewrite mcubootScan_fold. simpl. eauto.
Qed.

(** C10: when the file has been read and parsed, parseOneFile dispatches
    mcubootFileKnownAction with the file's path exactly when the memory map
    has a block whose start address is 0xC000; it dispatches that action for
    no other path. *)
Theorem parseOneFile_flags_mcuboot fs filePath st mru memMap :
  parsedAs fs filePath st memMap →
  (MCUBOOT_FILE_KNOWN (Some filePath) ∈ dispatched (parseOneFile fs filePath st mru)
   ↔ ∃ block, (0xC000, block) ∈ memMap)
  ∧ (∀ p, MCUBOOT_FILE_KNOWN p ∈ dispatched (parseOneFile fs filePath st mru) →
          p = Some filePath).
Proof.
  intros Hp. destruct (parseOneFile_parsed fs filePath st mru memMap Hp)
    as (loaded' & memMaps' & ->).
  assert (∀ p, MCUBOOT_FILE_KNOWN p
               ∈ ((λ _ : Z * list Byte.byte, MCUBOOT_FILE_KNOWN (Some filePath))
                    <$> filter (λ en, en.1 = MCUBOOT_FW_START_ADDRESS) memMap)
                  ++ [FILE_PARSE loaded' memMaps'; THUNK_updateFileRegions;
                      THUNK_updateTargetWritable]
             ↔ p = Some filePath ∧ ∃ block, (0xC000, block) ∈ memMap) as Hiff.
  { intros p. rewrite elem_of_app, list_elem_of_fmap. split.
    - intros [([a b] & [= ->] & [Ha Hin]%list_elem_of_filter)|Hin].
      + simpl in Ha. subst a. eauto.
      + repeat (apply elem_of_cons in Hin as [Hin|Hin]; [done|]).
        by apply elem_of_nil in Hin.
    - intros [-> [block Hb]]. left. exists (0xC000, block). split; [done|].
      by apply list_elem_of_filter. }
  split.
  - split.
    + by intros [_ ?]%Hiff.
    + intros Hb. by apply Hiff.
  - intros p Hin. by apply Hiff in Hin as [-> _].
Qed.

Lemma parseOneFile_flags_mcuboot_witness :
  MCUBOOT_FILE_KNOWN (Some "b.hex")
    ∈ dispatched (parseOneFile sampleFs "b.hex" loadedState ["a.hex"]).
Proof.
  apply (parseOneFile_flags_mcuboot sampleFs "b.hex" loadedState ["a.hex"] sampleMap).
  - split; [reflexivity|]. exists 0, ":00000001FF". done.
  - exists [Byte.x01; Byte.x02]. apply list_elem_of_here.
Defined.

(** ** Where the scans do compute the minimum and the maximum *)

Lemma pairwise_tail R a b l : pairwise R (a :: b :: l) → pairwise R (a :: l).
Proof. simpl. intros ([_ Ha]%Forall_cons & _ & Hl). done. Qed.

Section scans_meet_spec.
Variable bl : Region.

Lemma appStartScan_min l : ∀ s,
  s ≠ 0 →
  Forall (λ r, named APPLICATION r = true → positioned r) l →
  fold_left appStartScan l (Some s)
  = Some (fold_left Z.min (startAddress <$> filter (λ r, named APPLICATION r = true) l) s).
Proof.
  induction l as [|r l IH]; intros s Hs Hl; simpl; [done|].
  apply Forall_cons in Hl as [Hr Hl].
  unfold appStartScan at 2. destruct (named APPLICATION r) eqn:Hn; simpl.
  - rewrite filter_cons_True by done. simpl.
    destruct (Hr eq_refl) as [Hpos _].
    unfold unset_or. simpl. rewrite (proj2 (Z.eqb_neq s 0) Hs). simpl.
    destruct (Z.gtb_spec s (startAddress r)).
    + rewrite IH by (done || lia). do 2 f_equal. lia.
    + rewrite IH by done. do 2 f_equal. lia.
  - rewrite filter_cons_False by congruence. by apply IH.
Qed.

Lemma appStartScan_minimum l :
  Forall (λ r, named APPLICATION r = true → positioned r) l →
  fold_left appStartScan l None
  = minimumZ (startAddress <$> filter (λ r, named APPLICATION r = true) l).
Proof.
  induction l as [|r l IH]; intros Hl; simpl; [done|].
  apply Forall_cons in Hl as [Hr Hl].
  unfold appStartScan at 2. destruct (named APPLICATION r) eqn:Hn; simpl.
  - rewrite filter_cons_True by done. simpl.
    destruct (Hr eq_refl) as [Hpos _]. apply appStartScan_min; [lia|done].
  - rewrite filter_cons_False by congruence. by apply IH.
Qed.

Lemma appEndScan_below l e0 :
  fold_left (appEndScan (Some bl)) l e0
  = fold_left (appEndScan (Some bl)) (filter (λ r, appBelowBl (Some bl) r = true) l) e0.
Proof.
  revert e0. induction l as [|r l IH]; intros e0; [done|]. cbn [fold_left].
  destruct (appBelowBl (Some bl) r) eqn:Hr.
  - rewrite filter_cons_True by done. cbn [fold_left]. apply IH.
  - rewrite filter_cons_False by congruence.
    unfold appEndScan at 2. rewrite Hr. cbn [andb]. apply IH.
Qed.

Lemma appEndScan_max qs : ∀ x,
  Forall (λ r, appBelowBl (Some bl) r = true ∧ positioned r) (x :: qs) →
  pairwise apart (x :: qs) →
  fold_left (appEndScan (Some bl)) qs (Some (endAddress x))
  = Some (fold_left Z.max (endAddress <$> qs) (endAddress x)).
Proof.
  induction qs as [|q qs IH]; intros x Hok Hap; simpl; [done|].
  pose proof Hok as Hok'. apply Forall_cons in Hok' as [[_ [Hx0 Hx1]] Hq].
  pose proof Hq as Hq'. apply Forall_cons in Hq' as [[Hqb [Hq0 Hq1]] _].
  pose proof (pairwise_tail _ _ _ _ Hap) as Hxl.
  destruct Hap as [[Hxq _]%Forall_cons Hql].
  unfold appEndScan at 2. rewrite Hqb. simpl. unfold unset_or. simpl.
  unfold endAddress in *.
  destruct (Z.eqb_spec (startAddress x + regionSize x) 0) as [Hz|_]; [lia|]. simpl.
  destruct (Z.ltb_spec (startAddress x + regionSize x) (startAddress q)) as [Hlt|Hge].
  - rewrite (IH q) by done. do 2 f_equal. unfold endAddress. lia.
  - assert (Forall (λ r, appBelowBl (Some bl) r = true ∧ positioned r) (x :: qs)) as Hok2.
    { apply Forall_cons in Hok as [? Hr]. apply Forall_cons in Hr as [_ ?].
      by constructor. }
    rewrite (IH x Hok2 Hxl). do 2 f_equal. unfold apart, endAddress in Hxq. lia.
Qed.

Lemma appEndScan_maximum l :
  Forall (λ r, named APPLICATION r = true → positioned r) l →
  pairwise apart (filter (λ r, appBelowBl (Some bl) r = true) l) →
  fold_left (appEndScan (Some bl)) l None
  = maximumZ (endAddress <$> filter (λ r, appBelowBl (Some bl) r = true) l).
Proof.
  intros Hl Hap. rewrite appEndScan_below.
  assert (Forall (λ r, appBelowBl (Some bl) r = true ∧ positioned r)
            (filter (λ r, appBelowBl (Some bl) r = true) l)) as Hok.
  { apply Forall_forall. intros r [Hr Hin]%list_elem_of_filter.
    rewrite Forall_forall in Hl. split; [done|].
    apply Hl; [done|]. by apply (appBelowBl_named (Some bl)). }
  destruct (filter (λ r, appBelowBl (Some bl) r = true) l) as [|x qs]; [done|].
  simpl. unfold appEndScan at 2.
  apply Forall_cons in Hok as [[Hx ?] ?]. rewrite Hx. simpl.
  apply appEndScan_max; [by constructor|done].
Qed.

(** On application fragments with positive start addresses, those below
    the bootloader lying apart from one another, the pass does what the
    specification describes. *)
Lemma mergeAppRegions_meets_spec rs :
  Forall (λ r, named APPLICATION r = true → positioned r) rs →
  pairwise apart (filter (λ r, appBelowBl (Some bl) r = true) rs) →
  mergeAppRegions (Some bl) rs = appMergeSpec bl rs.
Proof.
  intros Hl Hap. unfold mergeAppRegions, appMergeSpec, Immutable.forEach.
  rewrite appScan_split. fold (Immutable.forEach rs (appRemove (Some bl)) rs).
  rewrite appRemove_filter, (appStartScan_minimum rs Hl), (appEndScan_maximum rs Hl Hap).
  done.
Qed.
End scans_meet_spec.

Section bl_scan_meets_spec.
Variable bl : Region.
Variable di : DeviceInfo.

Lemma blScan_after l e0 :
  fold_left (blScan bl di) l e0
  = fold_left (blScan bl di) (filter (λ r, noneAfterBl bl di r = true) l) e0.
Proof.
  revert e0. induction l as [|r l IH]; intros e0; [done|]. cbn [fold_left].
  destruct (noneAfterBl bl di r) eqn:Hr.
  - rewrite filter_cons_True by done. cbn [fold_left]. apply IH.
  - rewrite filter_cons_False by congruence.
    unfold blScan at 2. rewrite Hr. cbn [andb]. apply IH.
Qed.

Lemma blScan_max qs : ∀ x,
  0 ≤ startAddress bl →
  Forall (λ r, noneAfterBl bl di r = true ∧ 0 ≤ regionSize r) (x :: qs) →
  pairwise separate (x :: qs) →
  fold_left (blScan bl di) qs (Some (endAddress x))
  = Some (fold_left Z.max (endAddress <$> qs) (endAddress x)).
Proof.
  induction qs as [|q qs IH]; intros x Hbl Hok Hap; simpl; [done|].
  pose proof Hok as Hok'. apply Forall_cons in Hok' as [[Hxb Hx1] Hq].
  pose proof Hq as Hq'. apply Forall_cons in Hq' as [[Hqb Hq1] _].
  pose proof (pairwise_tail _ _ _ _ Hap) as Hxl.
  destruct Hap as [[Hxq _]%Forall_cons Hql].
  unfold blScan at 2. rewrite Hqb. simpl. unfold unset_or. simpl.
  assert (startAddress bl < startAddress x ∧ startAddress bl < startAddress q) as [Hsx Hsq].
  { unfold noneAfterBl in Hxb, Hqb.
    apply andb_prop in Hxb as [[_ Hx]%andb_prop _].
    apply andb_prop in Hqb as [[_ Hq2]%andb_prop _].
    apply Z.gtb_lt in Hx, Hq2. done. }
  unfold endAddress in *.
  destruct (Z.eqb_spec (startAddress x + regionSize x) 0) as [Hz|_]; [lia|]. simpl.
  destruct (Z.leb_spec (startAddress x + regionSize x) (startAddress q)) as [Hle|Hgt].
  - rewrite (IH q) by done. do 2 f_equal. unfold endAddress. lia.
  - assert (Forall (λ r, noneAfterBl bl di r = true ∧ 0 ≤ regionSize r) (x :: qs)) as Hok2.
    { apply Forall_cons in Hok as [? Hr]. apply Forall_cons in Hr as [_ ?].
      by constructor. }
    rewrite (IH x Hbl Hok2 Hxl). do 2 f_equal. unfold separate, endAddress in Hxq. lia.
Qed.

(** On NONE regions of non-negative size that share no address, the end
    address the scan finds is the maximum the specification describes. *)
Lemma blScan_maximum l :
  0 ≤ startAddress bl →
  Forall (λ r, 0 ≤ regionSize r) l →
  pairwise separate (filter (λ r, noneAfterBl bl di r = true) l) →
  fold_left (blScan bl di) l None
  = maximumZ (endAddress <$> filter (λ r, noneAfterBl bl di r = true) l).
Proof.
  intros Hbl Hl Hap. rewrite blScan_after.
  assert (Forall (λ r, noneAfterBl bl di r = true ∧ 0 ≤ regionSize r)
            (filter (λ r, noneAfterBl bl di r = true) l)) as Hok.
  { apply Forall_forall. intros r [Hr Hin]%list_elem_of_filter.
    rewrite Forall_forall in Hl. split; [done|]. by apply Hl. }
  destruct (filter (λ r, noneAfterBl bl di r = true) l) as [|x qs]; [done|].
  simpl. unfold blScan at 2.
  apply Forall_cons in Hok as [[Hx ?] ?]. rewrite Hx. simpl.
  apply blScan_max; [done|by constructor|done].
Qed.
Lemma filter_ext_in (P Q : Region → Prop) `{!∀ r, Decision (P r)} `{!∀ r, Decision (Q r)}
    (l : list Region) :
  Forall (λ r, P r ↔ Q r) l → filter P l = filter Q l.
Proof.
  induction 1 as [|r l Hr _ IH]; [done|].
  rewrite !filter_cons, IH. destruct (decide (P r)), (decide (Q r)); tauto.
Qed.

Lemma replace_absent (bl' : Region) (l : list Region) :
  bl ∉ l → (λ r, if decide (r = bl) then bl' else r) <$> l = l.
Proof.
  induction l as [|r l IH]; intros Hn; [done|].
  rewrite fmap_cons, decide_False, IH; [done| |].
  - intros Hin. apply Hn. by apply list_elem_of_further.
  - intros ->. apply Hn. apply list_elem_of_here.
Qed.

(** When the bootloader region stands once in the sequence and every NONE
    region is one the scan looks at, the pass does what the specification
    describes. *)
Lemma mergeBlRegion_meets_spec pre suf :
  named BOOTLOADER bl = true → 0 ≤ startAddress bl →
  Forall (λ r, named BOOTLOADER r = false) pre → bl ∉ suf →
  Forall (λ r, 0 ≤ regionSize r) (pre ++ bl :: suf) →
  Forall (λ r, named NONE r = true → noneAfterBl bl di r = true) (pre ++ bl :: suf) →
  pairwise separate (filter (λ r, noneAfterBl bl di r = true) (pre ++ bl :: suf)) →
  mergeBlRegion bl di (pre ++ bl :: suf) = blMergeSpec bl di (pre ++ bl :: suf).
Proof.
  intros Hbl Hpos Hpre Hsuf Hsz Hall Hsep.
  rewrite mergeBlRegion_split by done. unfold blMergeSpec.
  rewrite (blScan_maximum _ Hpos Hsz Hsep).
  destruct (maximumZ _) as [e|]; [|done]. simpl. f_equal.
  assert (filter (λ r, noneAfterBl bl di r = false) (pre ++ bl :: suf)
          = filter (λ r, named NONE r = false) (pre ++ bl :: suf)) as ->.
  { apply filter_ext_in. eapply Forall_impl; [exact Hall|]. intros r Hr. simpl in *.
    unfold noneAfterBl in *. destruct (named NONE r); simpl in *; [|done].
    rewrite Hr by done. done. }
  rewrite filter_app, filter_cons_True by by apply named_BOOTLOADER_not_NONE.
  rewrite fmap_app, fmap_cons, decide_True by done.
  rewrite !replace_absent; [done| |].
  - intros [_ Hin]%list_elem_of_filter. done.
  - intros [_ Hin]%list_elem_of_filter.
    rewrite Forall_forall in Hpre. specialize (Hpre _ Hin). congruence.
Qed.
End bl_scan_meets_spec.

(** The hypotheses of the two comparisons with the specification hold on
    the regions of [paddedState]. *)
Example mergeAppRegions_meets_spec_padded :
  mergeAppRegions (Some (BL 0x7000 0x7100)) (file_regions paddedState)
  = appMergeSpec (BL 0x7000 0x7100) (file_regions paddedState).
Proof.
  apply mergeAppRegions_meets_spec.
  - repeat constructor; simpl; try done; unfold positioned; simpl; lia.
  - vm_compute. repeat constructor; lia.
Qed.

Example mergeBlRegion_meets_spec_padded :
  mergeBlRegion (BL 0x7000 0x7100) nrf_di (file_regions paddedState)
  = blMergeSpec (BL 0x7000 0x7100) nrf_di (file_regions paddedState).
Proof.
  apply (mergeBlRegion_meets_spec (BL 0x7000 0x7100) nrf_di
           [APP 0x1000 0x2000; APP 0x3000 0x4000] [NO 0x7100 0x7200]).
  - done.
  - simpl. lia.
  - by repeat constructor.
  - intros Hin%list_elem_of_singleton. done.
  - repeat constructor; simpl; lia.
  - by repeat constructor.
  - vm_compute. repeat constructor.
Qed.

(** * Further properties of the module *)

(** ** When the two passes dispatch, and what they publish *)

(** X1: updateFileAppRegions dispatches nothing exactly when the target has
    no BOOTLOADER region or no APPLICATION region of the file starts below
    the target's first BOOTLOADER region. *)
Theorem updateFileAppRegions_noop_iff st :
  updateFileAppRegions st = [] ↔
  ∀ bl r, Immutable.find (named BOOTLOADER) (target_regions st) = Some bl →
          r ∈ file_regions st → name r = APPLICATION →
          startAddress bl ≤ startAddress r.
Proof.
  unfold updateFileAppRegions.
  destruct (mergeAppRegions _ _) as [out|] eqn:Hm.
  - split; [done|]. intros Hall. exfalso.
    apply mergeAppRegions_Some in Hm as (s & e & [bl Hbl] & _ & He & _).
    rewrite Hbl in He.
    apply appEndScan_origin in He as [?|(r & Hr & Hq & _)]; [done|].
    apply appBelowBl_Some in Hq as [Hn Hlt].
    specialize (Hall bl r Hbl Hr Hn). lia.
  - split; [|done]. intros _ bl r Hbl Hr Hn.
    apply mergeAppRegions_None in Hm. rewrite Hbl, Forall_forall in Hm.
    specialize (Hm r Hr).
    destruct (Z.le_gt_cases (startAddress bl) (startAddress r)) as [|Hlt]; [done|].
    rewrite (proj2 (appBelowBl_Some bl r)) in Hm by done. done.
Qed.

(** X2: what updateFileAppRegions publishes is the file's sequence without
    the APPLICATION regions that start below the target's bootloader, in its
    order, followed by exactly one new APPLICATION region without file names;
    the new region starts where some APPLICATION region of the file starts
    and ends where one of the removed regions ends. *)
Theorem updateFileAppRegions_publishes st out :
  FILE_REGIONS_KNOWN out ∈ updateFileAppRegions st →
  ∃ bl M,
    Immutable.find (named BOOTLOADER) (target_regions st) = Some bl
    ∧ out = filter (λ r, ¬ (name r = APPLICATION ∧ startAddress r < startAddress bl))
              (file_regions st) ++ [M]
    ∧ name M = APPLICATION ∧ color M = ColorAPPLICATION ∧ fileNames M = []
    ∧ (∃ a, a ∈ file_regions st ∧ name a = APPLICATION
            ∧ startAddress M = startAddress a)
    ∧ (∃ b, b ∈ file_regions st ∧ name b = APPLICATION
            ∧ startAddress b < startAddress bl ∧ endAddress M = endAddress b).
Proof.
  unfold updateFileAppRegions.
  destruct (mergeAppRegions _ _) as [out'|] eqn:Hm; [|by intros ?%elem_of_nil].
  intros [= <-]%list_elem_of_singleton.
  apply mergeAppRegions_Some in Hm as (s & e & [bl Hbl] & Hs & He & ->).
  rewrite Hbl in *.
  exists bl, (newRegion APPLICATION s (e - s) ColorAPPLICATION).
  split_and!; try done.
  - f_equal. apply list_filter_iff. intros r.
    rewrite <- appBelowBl_Some. by destruct (appBelowBl (Some bl) r).
  - apply appStartScan_origin in Hs as [?|(a & Ha & Hn & Hv)]; [done|].
    exists a. split_and!; [done| |done].
    by apply bool_decide_eq_true in Hn.
  - apply appEndScan_origin in He as [?|(b & Hb & Hq & Hv)]; [done|].
    apply appBelowBl_Some in Hq as [Hn Hlt].
    exists b. split_and!; try done. unfold endAddress in *. simpl. lia.
Qed.

Lemma updateFileAppRegions_publishes_witness :
  ∃ bl M,
    Immutable.find (named BOOTLOADER) (target_regions paddedState) = Some bl
    ∧ [BL 0x7000 0x7100; NO 0x7100 0x7200; APP 0x1000 0x4000]
      = filter (λ r, ¬ (name r = APPLICATION ∧ startAddress r < startAddress bl))
          (file_regions paddedState) ++ [M]
    ∧ name M = APPLICATION ∧ color M = ColorAPPLICATION ∧ fileNames M = []
    ∧ (∃ a, a ∈ file_regions paddedState ∧ name a = APPLICATION
            ∧ startAddress M = startAddress a)
    ∧ (∃ b, b ∈ file_regions paddedState ∧ name b = APPLICATION
            ∧ startAddress b < startAddress bl ∧ endAddress M = endAddress b).
Proof.
  apply (updateFileAppRegions_publishes paddedState).
  vm_compute. apply list_elem_of_here.
Defined.

(** X3: updateFileBlRegion dispatches nothing exactly when the file has no
    BOOTLOADER region or no NONE region starts after the file's first
    BOOTLOADER region and ends before romSize. *)
Theorem updateFileBlRegion_noop_iff st :
  updateFileBlRegion st = [] ↔
  ∀ bl r, Immutable.find (named BOOTLOADER) (file_regions st) = Some bl →
          r ∈ file_regions st → name r = NONE →
          startAddress bl < startAddress r →
          romSize (target_deviceInfo st) ≤ endAddress r.
Proof.
  unfold updateFileBlRegion.
  destruct (Immutable.find _ _) as [bl|] eqn:Hbl; [|done].
  unfold mergeBlRegion, Immutable.forEach.
  destruct (fold_left _ _ None) as [e|] eqn:He.
  - split; [done|]. intros Hall. exfalso.
    apply blScan_origin in He as [?|(r & Hr & Hq & _)]; [done|].
    apply noneAfterBl_iff in Hq as (Hn & Hlt & Hrom).
    specialize (Hall bl r eq_refl Hr Hn Hlt). lia.
  - split; [|done]. intros _ bl' r [= <-] Hr Hn Hlt.
    apply blScan_None in He. rewrite Forall_forall in He. specialize (He r Hr).
    destruct (Z.le_gt_cases (romSize (target_deviceInfo st)) (endAddress r)) as [|Hlt2];
      [done|].
    rewrite (proj2 (noneAfterBl_iff bl (target_deviceInfo st) r)) in He by done. done.
Qed.

Lemma updateFileBlRegion_fired st out :
  FILE_REGIONS_KNOWN out ∈ updateFileBlRegion st →
  ∃ pre bl suf e,
    file_regions st = pre ++ bl :: suf
    ∧ Immutable.find (named BOOTLOADER) (file_regions st) = Some bl
    ∧ named BOOTLOADER bl = true
    ∧ Forall (λ r, named BOOTLOADER r = false) pre
    ∧ fold_left (blScan bl (target_deviceInfo st)) (file_regions st) None = Some e
    ∧ out = filter (λ r, named NONE r = false) pre
              ++ set_regionSize bl (e - startAddress bl)
              :: filter (λ r, named NONE r = false) suf.
Proof.
  unfold updateFileBlRegion.
  destruct (Immutable.find _ _) as [bl|] eqn:Hf; [|by intros ?%elem_of_nil].
  destruct (mergeBlRegion _ _ _) as [out'|] eqn:Hm; [|by intros ?%elem_of_nil].
  intros [= <-]%list_elem_of_singleton.
  pose proof Hf as Hf'.
  apply find_Some_split in Hf as (pre & suf & Hl & Hbl & Hpre).
  rewrite Hl in Hm. rewrite mergeBlRegion_split in Hm by done.
  apply fmap_Some in Hm as (e & He & ->).
  exists pre, bl, suf, e. rewrite Hl at 2. done.
Qed.

(** X4: what updateFileBlRegion publishes holds no NONE region; every other
    region of the file stands in it in its order, unchanged except for the
    file's first BOOTLOADER region, which keeps its name, start address,
    colour and file names and ends where one of the NONE regions that start
    after it and end before romSize ends. *)
Theorem updateFileBlRegion_publishes st out :
  FILE_REGIONS_KNOWN out ∈ updateFileBlRegion st →
  ∃ pre bl suf bl',
    file_regions st = pre ++ bl :: suf
    ∧ Forall (λ r, name r ≠ BOOTLOADER) pre ∧ name bl = BOOTLOADER
    ∧ out = filter (λ r, name r ≠ NONE) pre ++ bl' :: filter (λ r, name r ≠ NONE) suf
    ∧ Forall (λ r, name r ≠ NONE) out
    ∧ name bl' = BOOTLOADER ∧ startAddress bl' = startAddress bl
    ∧ color bl' = color bl ∧ fileNames bl' = fileNames bl
    ∧ ∃ r, r ∈ file_regions st ∧ name r = NONE
           ∧ startAddress bl < startAddress r
           ∧ endAddress r < romSize (target_deviceInfo st)
           ∧ endAddress bl' = endAddress r.
Proof.
  intros (pre & bl & suf & e & Hl & _ & Hbl & Hpre & He & ->)%updateFileBlRegion_fired.
  assert (∀ l : list Region,
            filter (λ r, named NONE r = false) l = filter (λ r, name r ≠ NONE) l) as Hfl.
  { intros l. apply list_filter_iff. intros r. unfold named.
    rewrite bool_decide_eq_false. done. }
  apply bool_decide_eq_true in Hbl.
  exists pre, bl, suf, (set_regionSize bl (e - startAddress bl)).
  rewrite !Hfl. split_and!; try done.
  - eapply Forall_impl; [exact Hpre|]. intros r Hr. simpl in Hr.
    by apply bool_decide_eq_false in Hr.
  - apply Forall_app. split; [|constructor].
    + apply Forall_forall. by intros r [? _]%list_elem_of_filter.
    + simpl. congruence.
    + apply Forall_forall. by intros r [? _]%list_elem_of_filter.
  - apply blScan_origin in He as [?|(r & Hr & Hq & Hv)]; [done|].
    apply noneAfterBl_iff in Hq as (Hn & Hlt & Hrom).
    exists r. split_and!; try done. unfold endAddress in *. simpl. lia.
Qed.

Lemma updateFileBlRegion_publishes_witness :
  ∃ pre bl suf bl',
    file_regions paddedState = pre ++ bl :: suf
    ∧ Forall (λ r, name r ≠ BOOTLOADER) pre ∧ name bl = BOOTLOADER
    ∧ [APP 0x1000 0x2000; APP 0x3000 0x4000; BL 0x7000 0x7200]
      = filter (λ r, name r ≠ NONE) pre ++ bl' :: filter (λ r, name r ≠ NONE) suf
    ∧ Forall (λ r, name r ≠ NONE)
        [APP 0x1000 0x2000; APP 0x3000 0x4000; BL 0x7000 0x7200]
    ∧ name bl' = BOOTLOADER ∧ startAddress bl' = startAddress bl
    ∧ color bl' = color bl ∧ fileNames bl' = fileNames bl
    ∧ ∃ r, r ∈ file_regions paddedState ∧ name r = NONE
           ∧ startAddress bl < startAddress r
           ∧ endAddress r < romSize (target_deviceInfo paddedState)
           ∧ endAddress bl' = endAddress r.
Proof.
  apply (updateFileBlRegion_publishes paddedState).
  vm_compute. apply list_elem_of_here.
Defined.

(** X5: when the file's NONE regions have non-negative sizes and share no
    address with the file's first BOOTLOADER region, the BOOTLOADER region
    that updateFileBlRegion publishes is not smaller than before, is not
    empty, and ends below romSize. *)
Theorem updateFileBlRegion_widens st out bl :
  FILE_REGIONS_KNOWN out ∈ updateFileBlRegion st →
  Immutable.find (named BOOTLOADER) (file_regions st) = Some bl →
  (∀ r, r ∈ file_regions st → name r = NONE → 0 ≤ regionSize r ∧ separate bl r) →
  ∃ bl', bl' ∈ out ∧ name bl' = BOOTLOADER ∧ startAddress bl' = startAddress bl
         ∧ regionSize bl ≤ regionSize bl' ∧ 0 < regionSize bl'
         ∧ endAddress bl' < romSize (target_deviceInfo st).
Proof.
  intros (pre & bl0 & suf & e & Hl & Hf & Hbl & Hpre & He & ->)%updateFileBlRegion_fired
    Hfind Hwf.
  rewrite Hfind in Hf. injection Hf as <-.
  apply blScan_origin in He as [?|(r & Hr & Hq & Hv)]; [done|].
  apply noneAfterBl_iff in Hq as (Hn & Hlt & Hrom).
  destruct (Hwf r Hr Hn) as [Hsz Hsep].
  apply bool_decide_eq_true in Hbl.
  exists (set_regionSize bl (e - startAddress bl)). split_and!; try done.
  - apply elem_of_app. right. apply list_elem_of_here.
  - unfold separate, endAddress in *. simpl. lia.
  - unfold endAddress in *. simpl. lia.
  - unfold endAddress in *. simpl. lia.
Qed.

Lemma updateFileBlRegion_widens_witness :
  ∃ bl', bl' ∈ [APP 0x1000 0x2000; APP 0x3000 0x4000; BL 0x7000 0x7200]
         ∧ name bl' = BOOTLOADER ∧ startAddress bl' = startAddress (BL 0x7000 0x7100)
         ∧ regionSize (BL 0x7000 0x7100) ≤ regionSize bl' ∧ 0 < regionSize bl'
         ∧ endAddress bl' < romSize (target_deviceInfo paddedState).
Proof.
  apply (updateFileBlRegion_widens paddedState).
  - vm_compute. apply list_elem_of_here.
  - reflexivity.
  - intros r Hr Hn.
    assert (r = NO 0x7100 0x7200) as ->.
    { simpl in Hr. repeat (apply elem_of_cons in Hr as [->|Hr]; [done|]).
      by apply elem_of_nil in Hr. }
    split; [simpl; lia|]. left. unfold endAddress. simpl. lia.
Defined.

(** ** The two passes in either order *)

Lemma filter_filter_absorb (P Q : Region → Prop)
    `{!∀ r, Decision (P r)} `{!∀ r, Decision (Q r)} (l : list Region) :
  (∀ r, P r → Q r) → filter P (filter Q l) = filter P l.
Proof.
  intros HPQ. rewrite list_filter_filter. apply list_filter_iff. intros r.
  split; [tauto|]. intros HP. split; [done|by apply HPQ].
Qed.

Lemma filter_filter_swap (P Q : Region → Prop)
    `{!∀ r, Decision (P r)} `{!∀ r, Decision (Q r)} (l : list Region) :
  filter P (filter Q l) = filter Q (filter P l).
Proof. rewrite !list_filter_filter. apply list_filter_iff. intros r. tauto. Qed.

Lemma appStartScan_named l s :
  fold_left appStartScan l s
  = fold_left appStartScan (filter (λ r, named APPLICATION r = true) l) s.
Proof.
  revert s. induction l as [|r l IH]; intros s; [done|]. cbn [fold_left].
  destruct (named APPLICATION r) eqn:Hr.
  - rewrite filter_cons_True by done. cbn [fold_left]. apply IH.
  - rewrite filter_cons_False by congruence.
    unfold appStartScan at 2. rewrite Hr. cbn [andb]. apply IH.
Qed.

Lemma appEndScan_named tbl l e :
  fold_left (appEndScan tbl) l e
  = fold_left (appEndScan tbl) (filter (λ r, named APPLICATION r = true) l) e.
Proof.
  revert e. induction l as [|r l IH]; intros e; [done|]. cbn [fold_left].
  destruct (named APPLICATION r) eqn:Hr.
  - rewrite filter_cons_True by done. cbn [fold_left]. apply IH.
  - rewrite filter_cons_False by congruence.
    assert (appBelowBl tbl r = false) as Hq.
    { destruct (appBelowBl tbl r) eqn:Hq; [|done].
      apply appBelowBl_named in Hq. congruence. }
    unfold appEndScan at 2. rewrite Hq. cbn [andb]. apply IH.
Qed.

Lemma blScan_named bl di l e :
  fold_left (blScan bl di) l e
  = fold_left (blScan bl di) (filter (λ r, named NONE r = true) l) e.
Proof.
  revert e. induction l as [|r l IH]; intros e; [done|]. cbn [fold_left].
  destruct (named NONE r) eqn:Hr.
  - rewrite filter_cons_True by done. cbn [fold_left]. apply IH.
  - rewrite filter_cons_False by congruence.
    unfold blScan at 2, noneAfterBl. rewrite Hr. cbn [andb]. apply IH.
Qed.

(** The application pass looks at the APPLICATION regions only: on two
    sequences with the same APPLICATION regions it rests on both or
    appends the same region to both. *)
Lemma mergeAppRegions_by_applications tbl l :
  (∀ l', filter (λ r, named APPLICATION r = true) l'
         = filter (λ r, named APPLICATION r = true) l → mergeAppRegions tbl l' = None)
  ∨ ∃ M, named APPLICATION M = true
      ∧ ∀ l', filter (λ r, named APPLICATION r = true) l'
              = filter (λ r, named APPLICATION r = true) l →
              mergeAppRegions tbl l'
              = Some (filter (λ r, appBelowBl tbl r = false) l' ++ [M]).
Proof.
  assert (∀ l', filter (λ r, named APPLICATION r = true) l'
                = filter (λ r, named APPLICATION r = true) l →
                mergeAppRegions tbl l'
                = match tbl, fold_left appStartScan l None,
                        fold_left (appEndScan tbl) l None with
                  | Some _, Some s, Some e =>
                      Some (filter (λ r, appBelowBl tbl r = false) l'
                              ++ [newRegion APPLICATION s (e - s) ColorAPPLICATION])
                  | _, _, _ => None
                  end) as Hm.
  { intros l' Hl'. unfold mergeAppRegions, Immutable.forEach.
    rewrite appScan_split. fold (Immutable.forEach l' (appRemove tbl) l').
    rewrite appRemove_filter.
    rewrite (appStartScan_named l'), (appEndScan_named tbl l'), Hl'.
    rewrite <- (appStartScan_named l), <- (appEndScan_named tbl l).
    destruct tbl as [b|]; [|done].
    by destruct (fold_left appStartScan l None),
                (fold_left (appEndScan (Some b)) l None). }
  destruct tbl as [b|]; [|by left].
  destruct (fold_left appStartScan l None) as [s|]; [|by left].
  destruct (fold_left (appEndScan (Some b)) l None) as [e|]; [|by left].
  right. by exists (newRegion APPLICATION s (e - s) ColorAPPLICATION).
Qed.

Lemma appPass_by_applications trs l :
  (∀ l', filter (λ r, named APPLICATION r = true) l'
         = filter (λ r, named APPLICATION r = true) l → appPass trs l' = l')
  ∨ ∃ M, named APPLICATION M = true
      ∧ ∀ l', filter (λ r, named APPLICATION r = true) l'
              = filter (λ r, named APPLICATION r = true) l →
              appPass trs l'
              = filter (λ r, appBelowBl (Immutable.find (named BOOTLOADER) trs) r = false) l'
                  ++ [M].
Proof.
  destruct (mergeAppRegions_by_applications (Immutable.find (named BOOTLOADER) trs) l)
    as [Hn|(M & HM & Hs)].
  - left. intros l' Hl'. unfold appPass. by rewrite (Hn l' Hl').
  - right. exists M. split; [done|]. intros l' Hl'. unfold appPass.
    by rewrite (Hs l' Hl').
Qed.

(** The bootloader pass looks at the first BOOTLOADER region and the NONE
    regions only. *)
Lemma blPass_by_nones di pre bl suf :
  named BOOTLOADER bl = true →
  (∀ pre' suf', Forall (λ r, named BOOTLOADER r = false) pre' →
     filter (λ r, named NONE r = true) (pre' ++ bl :: suf')
     = filter (λ r, named NONE r = true) (pre ++ bl :: suf) →
     blPass di (pre' ++ bl :: suf') = pre' ++ bl :: suf')
  ∨ ∃ bl', named BOOTLOADER bl' = true
      ∧ ∀ pre' suf', Forall (λ r, named BOOTLOADER r = false) pre' →
          filter (λ r, named NONE r = true) (pre' ++ bl :: suf')
          = filter (λ r, named NONE r = true) (pre ++ bl :: suf) →
          blPass di (pre' ++ bl :: suf')
          = filter (λ r, named NONE r = false) pre'
              ++ bl' :: filter (λ r, named NONE r = false) suf'.
Proof.
  intros Hbl.
  assert (∀ pre' suf', Forall (λ r, named BOOTLOADER r = false) pre' →
            filter (λ r, named NONE r = true) (pre' ++ bl :: suf')
            = filter (λ r, named NONE r = true) (pre ++ bl :: suf) →
            blPass di (pre' ++ bl :: suf')
            = default (pre' ++ bl :: suf')
                ((λ e, filter (λ r, named NONE r = false) pre'
                         ++ set_regionSize bl (e - startAddress bl)
                         :: filter (λ r, named NONE r = false) suf')
                   <$> fold_left (blScan bl di) (pre ++ bl :: suf) None)) as Hm.
  { intros pre' suf' Hpre' Hn. unfold blPass.
    rewrite (find_middle _ pre' suf' bl) by done.
    rewrite mergeBlRegion_split by done.
    rewrite (blScan_named bl di (pre' ++ bl :: suf')), Hn.
    by rewrite <- (blScan_named bl di (pre ++ bl :: suf)). }
  destruct (fold_left (blScan bl di) (pre ++ bl :: suf) None) as [e|].
  - right. exists (set_regionSize bl (e - startAddress bl)). split; [done|].
    intros pre' suf' Hpre' Hn. by rewrite (Hm pre' suf' Hpre' Hn).
  - left. intros pre' suf' Hpre' Hn. by rewrite (Hm pre' suf' Hpre' Hn).
Qed.

Lemma blPass_keeps_applications di l :
  filter (λ r, named APPLICATION r = true) (blPass di l)
  = filter (λ r, named APPLICATION r = true) l.
Proof.
  destruct (blPass_cases di l) as [->|(pre & bl & suf & e & -> & Hbl & _ & _ & ->)];
    [done|].
  assert (∀ r, named APPLICATION r = true → named NONE r = false) as Himp.
  { intros r. unfold named. rewrite bool_decide_eq_true, bool_decide_eq_false.
    congruence. }
  assert (named APPLICATION bl = false) as Hb.
  { unfold named in *. apply bool_decide_eq_true in Hbl.
    apply bool_decide_eq_false. congruence. }
  rewrite !filter_app, !filter_cons_False, !filter_filter_absorb; try done.
  - rewrite Hb. done.
  - rewrite named_set_regionSize, Hb. done.
Qed.

Lemma find_none_filter_app (p : Region → bool) (Q : Region → Prop)
    `{!∀ r, Decision (Q r)} l M :
  Immutable.find p l = None → p M = false →
  Immutable.find p (filter Q l ++ [M]) = None.
Proof.
  intros Hl HM. apply find_None. apply find_None in Hl.
  apply Forall_app. split; [by apply Forall_filter_keep|]. by constructor.
Qed.

Lemma passes_commute_regions trs di rs :
  appPass trs (blPass di rs) = blPass di (appPass trs rs).
Proof.
  set (tbl := Immutable.find (named BOOTLOADER) trs).
  assert (∀ r, named NONE r = true → appBelowBl tbl r = false) as Hnq.
  { intros r Hn. destruct (appBelowBl tbl r) eqn:Hq; [|done].
    apply appBelowBl_named in Hq. unfold named in *.
    apply bool_decide_eq_true in Hn, Hq. congruence. }
  assert (∀ r, named BOOTLOADER r = true → appBelowBl tbl r = false) as Hbq.
  { intros r Hn. destruct (appBelowBl tbl r) eqn:Hq; [|done].
    apply appBelowBl_named in Hq. unfold named in *.
    apply bool_decide_eq_true in Hn, Hq. congruence. }
  destruct (appPass_by_applications trs rs) as [Hrest|(M & HM & Hfire)].
  { rewrite (Hrest (blPass di rs) (blPass_keeps_applications di rs)).
    by rewrite (Hrest rs eq_refl). }
  fold tbl in Hfire.
  rewrite (Hfire (blPass di rs) (blPass_keeps_applications di rs)).
  rewrite (Hfire rs eq_refl).
  assert (named NONE M = false ∧ named BOOTLOADER M = false) as [HMn HMb].
  { unfold named in *. apply bool_decide_eq_true in HM.
    split; apply bool_decide_eq_false; congruence. }
  destruct (Immutable.find (named BOOTLOADER) rs) as [bl|] eqn:Hf.
  - apply find_Some_split in Hf as (pre & suf & -> & Hbl & Hpre).
    assert (Forall (λ r, named BOOTLOADER r = false)
              (filter (λ r, appBelowBl tbl r = false) pre)) as Hpre'
      by by apply Forall_filter_keep.
    assert (filter (λ r, appBelowBl tbl r = false) (pre ++ bl :: suf) ++ [M]
            = filter (λ r, appBelowBl tbl r = false) pre
                ++ bl :: (filter (λ r, appBelowBl tbl r = false) suf ++ [M])) as Hshape.
    { rewrite filter_app, filter_cons_True by by apply Hbq.
      by rewrite <- app_assoc. }
    assert (filter (λ r, named NONE r = true)
              (filter (λ r, appBelowBl tbl r = false) pre
                 ++ bl :: (filter (λ r, appBelowBl tbl r = false) suf ++ [M]))
            = filter (λ r, named NONE r = true) (pre ++ bl :: suf)) as Hnones.
    { rewrite !filter_app, !filter_cons, !filter_app, !filter_filter_absorb by done.
      rewrite filter_cons_False, filter_nil, app_nil_r by congruence. done. }
    rewrite Hshape.
    destruct (blPass_by_nones di pre bl suf Hbl) as [Hrest|(bl' & Hbl' & Hbfire)].
    + rewrite (Hrest _ _ Hpre' Hnones), (Hrest pre suf Hpre eq_refl).
      by rewrite Hshape.
    + rewrite (Hbfire _ _ Hpre' Hnones), (Hbfire pre suf Hpre eq_refl).
      rewrite !filter_app, filter_cons_True by by apply Hbq.
      rewrite (filter_cons_True _ M []), filter_nil by done.
      rewrite <- !app_assoc. simpl.
      rewrite (filter_filter_swap _ _ pre), (filter_filter_swap _ _ suf). done.
  - unfold blPass at 1. rewrite Hf.
    unfold blPass. by rewrite find_none_filter_app.
Qed.

(** X6: the two passes commute: running updateFileBlRegion first and
    updateFileAppRegions second leaves the store as the other order does. *)
Theorem passes_commute st :
  dispatch updateFileAppRegions (dispatch updateFileBlRegion st) = reconcile st.
Proof.
  rewrite reconcile_regions, dispatch_updateFileAppRegions, dispatch_updateFileBlRegion.
  simpl. f_equal. apply passes_commute_regions.
Qed.

(** ** updateFileRegions and updateDetectedRegionNames *)

Lemma outsideFlashBlocks_nil di overlaps :
  outsideFlashBlocks di overlaps = [] ↔
  Forall (λ en, outsideFlash di en.1 (overlapEnd en.1 en.2) = false) overlaps.
Proof.
  unfold outsideFlashBlocks. rewrite outsideScan_fold. simpl.
  induction overlaps as [|en l IH]; [split; [constructor|done]|].
  rewrite filter_cons.
  destruct (outsideFlash di en.1 (overlapEnd en.1 en.2)) eqn:Hf.
  - rewrite decide_True by done. split; [done|].
    intros [? _]%Forall_cons. congruence.
  - rewrite decide_False by congruence. rewrite IH.
    split; [by constructor|]. by intros [_ ?]%Forall_cons.
Qed.

(** X7: updateFileRegions first removes the file warnings and publishes
    exactly the regions of getFileRegions; it warns of overlapping data
    exactly when some region carries more than one file name, and of data
    outside the user-writable areas exactly when some block of the overlaps
    passes the out-of-area test. *)
Theorem updateFileRegions_dispatches overlapMemoryMaps getFileRegions st :
  let acts := updateFileRegions overlapMemoryMaps getFileRegions st in
  let regions := getFileRegions (file_memMaps st) (target_deviceInfo st) in
  let overlaps := overlapMemoryMaps (file_memMaps st) in
  head acts = Some FILE_WARNING_REMOVE
  ∧ (∀ rs, FILE_REGIONS_KNOWN rs ∈ acts ↔ rs = regions)
  ∧ (FILE_WARNING_ADD "Some of the HEX files have overlapping data." ∈ acts
     ↔ ∃ r, r ∈ regions ∧ (1 < length (fileNames r))%nat)
  ∧ ((∃ blocks, FILE_WARNING_ADD ("There is data outside the user-writable areas ("
                                    +:+ blocks +:+ ").") ∈ acts)
     ↔ ∃ en, en ∈ overlaps
             ∧ outsideFlash (target_deviceInfo st) en.1 (overlapEnd en.1 en.2) = true).
Proof.
  intros acts regions overlaps. unfold acts, updateFileRegions.
  fold regions. fold overlaps.
  set (blocks := outsideFlashBlocks (target_deviceInfo st) overlaps).
  assert (Hex : existsb (λ r, 1 <? Z.of_nat (length (fileNames r))) regions = true
                ↔ ∃ r, r ∈ regions ∧ (1 < length (fileNames r))%nat).
  { rewrite existsb_exists. split.
    - intros (r & Hin%list_elem_of_In & Hlt%Z.ltb_lt). exists r. split; [done|lia].
    - intros (r & Hin & Hlt). exists r. split; [by apply list_elem_of_In|].
      apply Z.ltb_lt. lia. }
  assert (Hbl : blocks ≠ [] ↔ ∃ en, en ∈ overlaps
                  ∧ outsideFlash (target_deviceInfo st) en.1 (overlapEnd en.1 en.2) = true).
  { unfold blocks. rewrite outsideFlashBlocks_nil.
    split.
    - intros Hn. apply not_Forall_Exists in Hn; [|apply _].
      apply Exists_exists in Hn as (en & Hin & Hf). exists en. split; [done|].
      simpl in Hf. by apply not_false_is_true.
    - intros (en & Hin & Hf) Hall. rewrite Forall_forall in Hall.
      specialize (Hall en Hin). congruence. }
  split_and!.
  - done.
  - intros rs. split.
    + intros Hin. simpl in Hin. apply elem_of_cons in Hin as [?|Hin]; [done|].
      apply elem_of_app in Hin as [Hin|Hin].
      { destruct (existsb _ regions); [|by apply elem_of_nil in Hin].
        by apply list_elem_of_singleton in Hin. }
      apply elem_of_app in Hin as [Hin|Hin].
      { destruct blocks; [by apply elem_of_nil in Hin|].
        by apply list_elem_of_singleton in Hin. }
      apply elem_of_cons in Hin as [[= ->]|Hin]; [done|].
      by apply list_elem_of_singleton in Hin.
    + intros ->. simpl. apply list_elem_of_further.
      apply elem_of_app. right. apply elem_of_app. right. apply list_elem_of_here.
  - rewrite <- Hex. split.
    + intros Hin. simpl in Hin. apply elem_of_cons in Hin as [?|Hin]; [done|].
      apply elem_of_app in Hin as [Hin|Hin].
      { destruct (existsb _ regions); [done|by apply elem_of_nil in Hin]. }
      apply elem_of_app in Hin as [Hin|Hin].
      { destruct blocks; [by apply elem_of_nil in Hin|].
        by apply list_elem_of_singleton in Hin. }
      apply elem_of_cons in Hin as [?|Hin]; [done|].
      by apply list_elem_of_singleton in Hin.
    + intros ->. simpl. apply list_elem_of_further. apply list_elem_of_here.
  - rewrite <- Hbl. split.
    + intros (text & Hin) Hnil. rewrite Hnil in Hin. simpl in Hin.
      apply elem_of_cons in Hin as [?|Hin]; [done|].
      apply elem_of_app in Hin as [Hin|Hin].
      { destruct (existsb _ regions); [|by apply elem_of_nil in Hin].
        by apply list_elem_of_singleton in Hin. }
      apply elem_of_cons in Hin as [?|Hin]; [done|].
      by apply list_elem_of_singleton in Hin.
    + intros Hne. exists (join ", " blocks). simpl. apply list_elem_of_further.
      apply elem_of_app. right. apply elem_of_app. left.
      destruct blocks; [done|]. apply list_elem_of_here.
Qed.

Section detected_facts.
Variable nameTruthy : RegionName → bool.

Lemma detectScan_fold l : ∀ d0 n,
  n ∈ fold_left (detectScan nameTruthy) l d0 ↔
  n ∈ d0 ∨ (nameTruthy n = true ∧ n ∈ regionChecklist ∧ ∃ r, r ∈ l ∧ name r = n).
Proof.
  induction l as [|r l IH]; intros d0 n; simpl.
  - split; [by left|]. intros [?|(_ & _ & r & Hr & _)]; [done|].
    by apply elem_of_nil in Hr.
  - rewrite IH. unfold detectScan.
    destruct (nameTruthy (name r)) eqn:Ht,
             (bool_decide (name r ∈ regionChecklist)) eqn:Hc; simpl.
    + apply bool_decide_eq_true in Hc. rewrite elem_of_union, elem_of_singleton.
      split.
      * intros [[?| ->]|(? & ? & a & Ha & Hn)]; [by left| |].
        -- right. split_and!; [done..|]. exists r. split; [apply list_elem_of_here|done].
        -- right. split_and!; [done..|]. exists a. split; [by apply list_elem_of_further|done].
      * intros [?|(? & ? & a & [-> |Ha]%elem_of_cons & Hn)]; [by left;left| |].
        -- left. by right.
        -- right. split_and!; [done..|]. by exists a.
    + apply bool_decide_eq_false in Hc. split.
      * intros [?|(? & ? & a & Ha & Hn)]; [by left|].
        right. split_and!; [done..|]. exists a. split; [by apply list_elem_of_further|done].
      * intros [?|(? & ? & a & [-> |Ha]%elem_of_cons & Hn)]; [by left| |].
        -- subst n. done.
        -- right. split_and!; [done..|]. by exists a.
    + split.
      * intros [?|(? & ? & a & Ha & Hn)]; [by left|].
        right. split_and!; [done..|]. exists a. split; [by apply list_elem_of_further|done].
      * intros [?|(? & ? & a & [-> |Ha]%elem_of_cons & Hn)]; [by left| |].
        -- subst n. congruence.
        -- right. split_and!; [done..|]. by exists a.
    + split.
      * intros [?|(? & ? & a & Ha & Hn)]; [by left|].
        right. split_and!; [done..|]. exists a. split; [by apply list_elem_of_further|done].
      * intros [?|(? & ? & a & [-> |Ha]%elem_of_cons & Hn)]; [by left| |].
        -- subst n. congruence.
        -- right. split_and!; [done..|]. by exists a.
Qed.

(** X8: the names updateDetectedRegionNames publishes are the names of the
    file's regions that are truthy and among APPLICATION, SOFTDEVICE and
    BOOTLOADER; NONE is never among them. *)
Theorem updateDetectedRegionNames_detects st :
  ∃ detected,
    updateDetectedRegionNames nameTruthy st = [FILE_REGION_NAMES_KNOWN detected]
    ∧ (∀ n, n ∈ detected ↔
            nameTruthy n = true
            ∧ (n = APPLICATION ∨ n = SOFTDEVICE ∨ n = BOOTLOADER)
            ∧ ∃ r, r ∈ file_regions st ∧ name r = n)
    ∧ NONE ∉ detected.
Proof.
  eexists. split; [reflexivity|].
  assert (∀ n, n ∈ regionChecklist ↔ n = APPLICATION ∨ n = SOFTDEVICE ∨ n = BOOTLOADER)
    as Hc.
  { intros n. unfold regionChecklist. rewrite !elem_of_cons, elem_of_nil. tauto. }
  assert (∀ n, n ∈ Immutable.forEach (file_regions st) (detectScan nameTruthy) ∅ ↔
               nameTruthy n = true
               ∧ (n = APPLICATION ∨ n = SOFTDEVICE ∨ n = BOOTLOADER)
               ∧ ∃ r, r ∈ file_regions st ∧ name r = n) as Hd.
  { intros n. unfold Immutable.forEach. rewrite detectScan_fold, Hc.
    split; [|by right]. intros [Hin|?]; [|done]. by apply not_elem_of_empty in Hin. }
  split; [exact Hd|].
  intros (_ & [?|[?|?]] & _)%Hd; done.
Qed.
End detected_facts.

(** ** The most-recently-used list, further *)

Lemma removeMruFile_absent files filename :
  filename ∉ files → removeMruFile filename files = files.
Proof.
  intros Hn. unfold removeMruFile.
  induction files as [|f files IH]; [done|].
  rewrite filter_cons_True, IH; [done| |].
  - intros Hin. apply Hn. by apply list_elem_of_further.
  - intros ->. apply Hn. apply list_elem_of_here.
Qed.

Lemma removeMruFile_gone files filename : filename ∉ removeMruFile filename files.
Proof. unfold removeMruFile. intros [Hne _]%list_elem_of_filter. done. Qed.

Lemma not_elem_of_take (files : list string) filename n :
  filename ∉ files → filename ∉ take n files.
Proof.
  intros Hn Hin. apply Hn.
  apply list_elem_of_lookup in Hin as [i Hi].
  apply lookup_take_Some in Hi as [Hi _]. by eapply list_elem_of_lookup_2.
Qed.

(** X9: a path that is not in the list is put in front of the nine most
    recent entries, later entries being dropped; removing it again gives
    those nine entries, so that on a full list adding and removing a path
    loses the oldest entry, and on a shorter list it gives the list back. *)
Theorem addMruFile_removeMruFile files filename :
  filename ∉ files →
  addMruFile filename files = filename :: take 9 files
  ∧ removeMruFile filename (addMruFile filename files) = take 9 files
  ∧ ((length files ≤ 9)%nat →
       removeMruFile filename (addMruFile filename files) = files).
Proof.
  intros Hn. rewrite (addMruFile_new files filename Hn). simpl.
  assert (removeMruFile filename (filename :: take 9 files) = take 9 files) as Hr.
  { unfold removeMruFile. rewrite filter_cons_False by (intros Hne; done).
    apply (removeMruFile_absent (take 9 files) filename).
    by apply not_elem_of_take. }
  split_and!; [done|done|]. intros Hlen. rewrite Hr. by apply take_ge.
Qed.

Lemma addMruFile_removeMruFile_witness :
  removeMruFile "c.hex" (addMruFile "c.hex" ["a.hex"; "b.hex"]) = ["a.hex"; "b.hex"].
Proof.
  apply (addMruFile_removeMruFile ["a.hex"; "b.hex"] "c.hex").
  - apply (bool_decide_unpack _). reflexivity.
  - simpl. lia.
Defined.

(** X10: removing a path and adding it again moves it to the front: the
    path comes first, and on a list of at most ten distinct paths that holds
    it, the other paths follow in their order and none is lost. *)
Theorem removeMruFile_addMruFile files filename :
  head (addMruFile filename (removeMruFile filename files)) = Some filename
  ∧ ((length files ≤ 10)%nat → filename ∈ files →
       addMruFile filename (removeMruFile filename files)
       = filename :: removeMruFile filename files).
Proof.
  rewrite (addMruFile_new _ filename (removeMruFile_gone files filename)).
  split; [done|]. intros Hlen Hin. simpl. f_equal. apply take_ge.
  unfold removeMruFile.
  pose proof (length_filter_lt (λ file, file ≠ filename) files filename Hin) as Hlt.
  assert (¬ filename ≠ filename) as Hnn by (intros Hne; done).
  specialize (Hlt Hnn). lia.
Qed.

Lemma removeMruFile_addMruFile_witness :
  addMruFile "b.hex" (removeMruFile "b.hex" ["a.hex"; "b.hex"]) = ["b.hex"; "a.hex"].
Proof.
  apply (removeMruFile_addMruFile ["a.hex"; "b.hex"] "b.hex").
  - simpl. lia.
  - apply (bool_decide_unpack _). reflexivity.
Defined.

(** ** parseOneFile, further *)

Lemma addMruFile_holds files filename : filename ∈ addMruFile filename files.
Proof.
  destruct (decide (filename ∈ files)) as [Hin|Hnin].
  - by rewrite (addMruFile_known files filename Hin).
  - rewrite (addMruFile_new files filename Hnin). simpl. apply list_elem_of_here.
Qed.

(** X11: parseOneFile publishes a new set of loaded files only when the
    file has been read and parsed; its promise is rejected exactly when the
    file is not loaded yet and stat or readFile fails; an error is shown
    exactly when the file is not loaded yet and stat, readFile or the HEX
    parser fails. *)
Theorem parseOneFile_outcomes fs filePath st mru :
  let r := parseOneFile fs filePath st mru in
  ((∃ loaded memMaps, FILE_PARSE loaded memMaps ∈ dispatched r)
   ↔ ∃ memMap, parsedAs fs filePath st memMap)
  ∧ (outcome r = Rejected
     ↔ isLoaded (file_loaded st) filePath = false
       ∧ ((∃ e, fs_stat fs filePath = inl e)
          ∨ (∃ mtime e, fs_stat fs filePath = inr mtime
                        ∧ fs_readFile fs filePath = inl e)))
  ∧ ((∃ message, ERROR_DIALOG_SHOW message ∈ dispatched r)
     ↔ isLoaded (file_loaded st) filePath = false
       ∧ ¬ ∃ memMap, parsedAs fs filePath st memMap).
Proof.
  intros r. unfold r, parseOneFile, parsedAs.
  destruct (isLoaded (file_loaded st) filePath) eqn:Hl; simpl.
  { split_and!.
    - split; [intros (? & ? & ?%elem_of_nil); done | intros (? & ? & _); done].
    - split; [done | intros [? _]; done].
    - split; [intros (? & ?%elem_of_nil); done | intros [? _]; done]. }
  destruct (fs_stat fs filePath) as [se|mtime] eqn:Hs; simpl.
  { split_and!.
    - split.
      + intros (? & ? & Hin%list_elem_of_singleton). done.
      + intros (? & _ & ? & ? & ? & _). done.
    - split; [|done]. intros _. split; [done|]. left. eauto.
    - split.
      + intros _. split; [done|]. intros (? & _ & ? & ? & ? & _). done.
      + intros _. exists se. apply list_elem_of_here. }
  destruct (fs_readFile fs filePath) as [re|data] eqn:Hr; simpl.
  { split_and!.
    - split.
      + intros (? & ? & Hin%list_elem_of_singleton). done.
      + intros (? & _ & ? & ? & _ & ? & _). done.
    - split; [|done]. intros _. split; [done|]. right. eauto.
    - split.
      + intros _. split; [done|]. intros (? & _ & ? & ? & _ & ? & _). done.
      + intros _. exists re. apply list_elem_of_here. }
  destruct (fromHex fs data) as [pe|memMap] eqn:Hx; simpl.
  { split_and!.
    - split.
      + intros (? & ? & Hin%list_elem_of_singleton). done.
      + intros (mm & _ & mt & d & _ & [= <-] & Hx'). congruence.
    - split; [done|]. intros [_ [(? & ?)|(? & ? & _ & ?)]]; done.
    - split.
      + intros _. split; [done|]. intros (mm & _ & mt & d & _ & [= <-] & Hx').
        congruence.
      + intros _. exists pe. apply list_elem_of_here. }
  rewrite mcubootScan_fold. simpl. split_and!.
  - split.
    + intros _. exists memMap. split; [done|]. eauto.
    + intros _. eexists _, _. apply elem_of_app. right. apply list_elem_of_here.
  - split; [done|]. intros [_ [(? & ?)|(? & ? & _ & ?)]]; done.
  - split.
    + intros (m & Hin). exfalso. apply elem_of_app in Hin as [Hin|Hin].
      * apply list_elem_of_fmap in Hin as (? & ? & _). done.
      * repeat (apply elem_of_cons in Hin as [?|Hin]; [done|]).
        by apply elem_of_nil in Hin.
    + intros [_ Hn]. exfalso. apply Hn. exists memMap. split; [done|]. eauto.
Qed.

(** X12: where parseOneFile leaves the path in the most-recently-used
    list: a file that stat or readFile cannot open is taken out of the list,
    and a file that could be read is in the list afterwards, also when the
    HEX parser rejects it and nothing is loaded. *)
Theorem parseOneFile_mru fs filePath st mru :
  isLoaded (file_loaded st) filePath = false →
  let r := parseOneFile fs filePath st mru in
  (outcome r = Rejected → filePath ∉ mruFiles r)
  ∧ (∀ mtime data, fs_stat fs filePath = inr mtime →
       fs_readFile fs filePath = inr data →
       filePath ∈ mruFiles r ∧ mruFiles r = addMruFile filePath mru).
Proof.
  intros Hl r. unfold r, parseOneFile. rewrite Hl.
  destruct (fs_stat fs filePath) as [se|mtime] eqn:Hs; simpl.
  { split; [intros _; apply removeMruFile_gone | intros ? ? [=]]. }
  destruct (fs_readFile fs filePath) as [re|data] eqn:Hr; simpl.
  { split; [intros _; apply removeMruFile_gone | intros ? ? _ [=]]. }
  destruct (fromHex fs data) as [pe|memMap]; simpl.
  - split; [done|]. intros _ _ _ _. split; [apply addMruFile_holds|done].
  - split; [done|]. intros _ _ _ _. split; [apply addMruFile_holds|done].
Qed.

Lemma parseOneFile_mru_witness :
  "b.hex" ∉ mruFiles (parseOneFile failingFs "b.hex" loadedState ["a.hex"; "b.hex"]).
Proof.
  apply (parseOneFile_mru failingFs "b.hex" loadedState ["a.hex"; "b.hex"]).
  - reflexivity.
  - reflexivity.
Defined.

Lemma reduce_flags (p : option string) (l : list (Z * list Byte.byte)) st :
  fold_left reduce ((λ _, MCUBOOT_FILE_KNOWN p) <$> l) st = st.
Proof. induction l as [|x l IH]; [done|]. simpl. exact IH. Qed.

Lemma parseOneFile_store fs filePath st mru mm :
  parsedAs fs filePath st mm →
  ∃ entry,
    memMap entry = mm
    ∧ filename entry = basename fs filePath
    ∧ file_loaded (afterParse (parseOneFile fs filePath st mru) st)
      = <[filePath := entry]> (file_loaded st)
    ∧ file_memMaps (afterParse (parseOneFile fs filePath st mru) st)
      = file_memMaps st ++ [(filePath, mm)]
    ∧ file_regions (afterParse (parseOneFile fs filePath st mru) st) = file_regions st.
Proof.
  intros (Hl & mtime & data & Hs & Hr & Hx).
  assert (dispatched (parseOneFile fs filePath st mru)
          = ((λ _, MCUBOOT_FILE_KNOWN (Some filePath))
               <$> filter (λ en, en.1 = MCUBOOT_FW_START_ADDRESS) mm)
            ++ [FILE_PARSE
                  (<[filePath := mkFileEntry (basename fs filePath) mtime (now fs) mm]>
                     (file_loaded st))
                  (file_memMaps st ++ [(filePath, mm)]);
                THUNK_updateFileRegions; THUNK_updateTargetWritable]) as Hd.
  { unfold parseOneFile. rewrite Hl, Hs, Hr, Hx. simpl.
    by rewrite mcubootScan_fold. }
  unfold afterParse. rewrite Hd, fold_left_app, reduce_flags.
  eexists (mkFileEntry _ _ _ _). simpl. split_and!; reflexivity.
Qed.

(** X13: once parseOneFile has read and parsed a file, the store it leaves
    holds the file under its path with the parsed memory map, the entries of
    the other paths as before, and the memory map appended as the last of
    the memMaps; asked for the same path again on that store, parseOneFile
    does nothing. *)
Theorem parseOneFile_loads_once fs filePath st mru mm :
  parsedAs fs filePath st mm →
  let st' := afterParse (parseOneFile fs filePath st mru) st in
  (∃ entry, file_loaded st' !! filePath = Some entry ∧ memMap entry = mm)
  ∧ (∀ other, other ≠ filePath → file_loaded st' !! other = file_loaded st !! other)
  ∧ file_memMaps st' = file_memMaps st ++ [(filePath, mm)]
  ∧ (∀ fs' mru', parseOneFile fs' filePath st' mru' = mkParseResult Resolved [] mru').
Proof.
  intros Hp st'.
  destruct (parseOneFile_store fs filePath st mru mm Hp)
    as (entry & He & _ & Hl & Hm & _).
  fold st' in Hl, Hm.
  assert (file_loaded st' !! filePath = Some entry) as Hlook
    by (rewrite Hl; apply lookup_insert_eq).
  split_and!.
  - by exists entry.
  - intros other Hne. rewrite Hl. by apply lookup_insert_ne.
  - done.
  - intros fs' mru'. unfold parseOneFile, isLoaded.
    rewrite bool_decide_eq_true_2; [done|]. by rewrite Hlook.
Qed.

Lemma parseOneFile_loads_once_witness :
  parseOneFile sampleFs "b.hex"
    (afterParse (parseOneFile sampleFs "b.hex" loadedState []) loadedState) []
  = mkParseResult Resolved [] [].
Proof.
  apply (parseOneFile_loads_once sampleFs "b.hex" loadedState [] sampleMap).
  split; [reflexivity|]. exists 0, ":00000001FF". done.
Defined.

(** ** removeFile *)

Lemma filter_Forall_id {A} (P : A → Prop) `{!∀ x, Decision (P x)} (l : list A) :
  Forall P l → filter P l = l.
Proof.
  induction 1 as [|x l Hx _ IH]; [done|]. rewrite filter_cons_True by done.
  by rewrite IH.
Qed.

(** X14: removeFile publishes the loaded files without the path and the
    memMaps without the entries of that path, the other entries keeping
    their order; a path that is neither loaded nor among the memMaps makes
    it publish the store's own files again. *)
Theorem removeFile_publishes filePath st :
  ∃ loaded memMaps,
    removeFile filePath st
    = [FILE_PARSE loaded memMaps; THUNK_updateFileRegions; THUNK_updateTargetWritable]
    ∧ loaded !! filePath = None
    ∧ (∀ other, other ≠ filePath → loaded !! other = file_loaded st !! other)
    ∧ memMaps = filter (λ element, element.1 ≠ filePath) (file_memMaps st)
    ∧ Forall (λ element, element.1 ≠ filePath) memMaps
    ∧ (file_loaded st !! filePath = None →
       Forall (λ element, element.1 ≠ filePath) (file_memMaps st) →
       loaded = file_loaded st ∧ memMaps = file_memMaps st).
Proof.
  eexists _, _. split; [reflexivity|]. split_and!.
  - apply lookup_delete_eq.
  - intros other Hne. by apply lookup_delete_ne.
  - done.
  - apply Forall_forall. by intros e [? _]%list_elem_of_filter.
  - intros Hl Hm. split; [by apply delete_id|]. by apply filter_Forall_id.
Qed.

(** X15: loading a file and removing it again gives the store's files
    back: when the memMaps held no entry of the path before, removeFile on
    the store parseOneFile leaves publishes the loaded files and the memMaps
    as they were before the file was parsed. *)
Theorem parseOneFile_removeFile fs filePath st mru mm :
  parsedAs fs filePath st mm →
  file_loaded st !! filePath = None →
  Forall (λ element, element.1 ≠ filePath) (file_memMaps st) →
  removeFile filePath (afterParse (parseOneFile fs filePath st mru) st)
  = [FILE_PARSE (file_loaded st) (file_memMaps st);
     THUNK_updateFileRegions; THUNK_updateTargetWritable].
Proof.
  intros Hp Hnone Hm.
  destruct (parseOneFile_store fs filePath st mru mm Hp)
    as (entry & _ & _ & Hl & Hmm & _).
  unfold removeFile. rewrite Hl, Hmm.
  rewrite delete_insert_eq, delete_id by done.
  rewrite filter_app, filter_cons_False, filter_nil, app_nil_r
    by (simpl; intros Hne; done).
  by rewrite (filter_Forall_id _ _ Hm).
Qed.

Lemma parseOneFile_removeFile_witness :
  removeFile "b.hex" (afterParse (parseOneFile sampleFs "b.hex" loadedState []) loadedState)
  = [FILE_PARSE (file_loaded loadedState) (file_memMaps loadedState);
     THUNK_updateFileRegions; THUNK_updateTargetWritable].
Proof.
  apply (parseOneFile_removeFile sampleFs "b.hex" loadedState [] sampleMap).
  - split; [reflexivity|]. exists 0, ":00000001FF". done.
  - reflexivity.
  - repeat constructor. simpl. intros Heq. discriminate Heq.
Defined.

(** ** openFile *)

Lemma truthyName_true p : truthyName p = true ↔ p ≠ "".
Proof.
  unfold truthyName. rewrite negb_true_iff, bool_decide_eq_false. done.
Qed.

(** X16: how openFile ends.  Every action it dispatches before the end is
    the reset of the MCUboot flag or an action that parseOneFile dispatches
    for one of the non-empty file names given.  When its promise resolves,
    these are followed by exactly one reload of the most-recently-used list
    as it stands at the end; when it is rejected, the list is not reloaded,
    and parseOneFile was rejected for one of the files. *)
Theorem openFile_settles fs filenames st mru :
  let o := openFile fs filenames st mru in
  ∃ log,
    Forall (λ a, a = MCUBOOT_FILE_KNOWN None
                 ∨ ∃ filename st' mru',
                     filename ∈ filenames ∧ filename ≠ ""
                     ∧ a ∈ dispatched (parseOneFile fs filename st' mru')) log
    ∧ match open_outcome o with
      | Resolved =>
          open_log o = (PLAIN <$> log) ++ [MRU_FILES_LOAD_SUCCESS (open_mru o)]
      | Rejected =>
          open_log o = PLAIN <$> log
          ∧ ∃ filename st' mru',
              filename ∈ filenames ∧ filename ≠ ""
              ∧ outcome (parseOneFile fs filename st' mru') = Rejected
      end.
Proof.
  revert st mru. induction filenames as [|filename rest IH]; intros st mru; simpl.
  - exists []. by split; [constructor|].
  - destruct (truthyName filename) eqn:Ht; simpl;
      [|exists []; by split; [constructor|]].
    apply truthyName_true in Ht.
    set (r := parseOneFile fs filename st mru).
    assert (Forall (λ a, a = MCUBOOT_FILE_KNOWN None
                         ∨ ∃ f st' mru', f ∈ filename :: rest ∧ f ≠ ""
                             ∧ a ∈ dispatched (parseOneFile fs f st' mru'))
              (MCUBOOT_FILE_KNOWN None :: dispatched r)) as Hhere.
    { constructor; [by left|]. apply Forall_forall. intros a Ha. right.
      exists filename, st, mru. split_and!; [apply list_elem_of_here|done..]. }
    destruct (outcome r) eqn:Ho; simpl.
    + destruct (IH (afterParse r st) (mruFiles r)) as (log & Hlog & Hend).
      exists ((MCUBOOT_FILE_KNOWN None :: dispatched r) ++ log). split.
      * apply Forall_app. split; [done|].
        eapply Forall_impl; [exact Hlog|]. simpl.
        intros a [?|(f & st' & mru' & Hf & Hne & Ha)]; [by left|right].
        exists f, st', mru'. split_and!; [by apply list_elem_of_further|done..].
      * simpl in Hend. rewrite fmap_app, fmap_cons.
        destruct (open_outcome (openFile fs rest _ _)).
        -- rewrite Hend. simpl. by rewrite <- app_assoc.
        -- destruct Hend as (-> & f & st' & mru' & Hf & Hne & Hrej). split; [done|].
           exists f, st', mru'. split_and!; [by apply list_elem_of_further|done..].
    + exists (MCUBOOT_FILE_KNOWN None :: dispatched r). split; [done|].
      split; [done|]. exists filename, st, mru.
      split_and!; [apply list_elem_of_here|done..].
Qed.

(** The same on two files that can be opened. *)
Lemma openFile_settles_witness :
  ∃ log,
    open_log (openFile sampleFs ["b.hex"; "c.hex"] loadedState [])
    = (PLAIN <$> log) ++ [MRU_FILES_LOAD_SUCCESS ["c.hex"; "b.hex"]].
Proof.
  destruct (openFile_settles sampleFs ["b.hex"; "c.hex"] loadedState [])
    as (log & _ & Hend).
  exists log. exact Hend.
Defined.

(** X17: openFile stops at the first empty file name: the names that
    follow it are not opened. *)
Theorem openFile_stops_at_empty fs before after st mru :
  openFile fs (before ++ "" :: after) st mru = openFile fs before st mru.
Proof.
  revert st mru. induction before as [|filename rest IH]; intros st mru; simpl.
  - done.
  - destruct (truthyName filename); [|done].
    destruct (outcome (parseOneFile fs filename st mru)); [|done].
    by rewrite IH.
Qed.

(** X18: a file whose parseOneFile is rejected ends openFile: whatever
    names follow the files opened so far, the result is the same. *)
Theorem openFile_rejection_aborts fs before after st mru :
  open_outcome (openFile fs before st mru) = Rejected →
  openFile fs (before ++ after) st mru = openFile fs before st mru.
Proof.
  revert st mru. induction before as [|filename rest IH]; intros st mru; simpl.
  - done.
  - destruct (truthyName filename); [|done].
    destruct (outcome (parseOneFile fs filename st mru)); [|done].
    simpl. intros Hr. by rewrite IH.
Qed.

Lemma openFile_rejection_aborts_witness :
  openFile failingFs (["b.hex"] ++ ["c.hex"; "d.hex"]) loadedState []
  = openFile failingFs ["b.hex"] loadedState [].
Proof.
  apply (openFile_rejection_aborts failingFs ["b.hex"] ["c.hex"; "d.hex"] loadedState []).
  reflexivity.
Defined.

(** ** checkUpToDateFiles *)

Lemma Forall2_elem_of_r {A B} (R : A → B → Prop) (l : list A) (k : list B) y :
  Forall2 R l k → y ∈ k → ∃ x, x ∈ l ∧ R x y.
Proof.
  induction 1 as [|x y' l k HR _ IH]; intros Hin; [by apply elem_of_nil in Hin|].
  apply elem_of_cons in Hin as [-> |Hin].
  - exists x. split; [apply list_elem_of_here|done].
  - destruct (IH Hin) as (x' & Hx' & HR'). exists x'.
    split; [by apply list_elem_of_further|done].
Qed.

Lemma Forall2_elem_of_l {A B} (R : A → B → Prop) (l : list A) (k : list B) x :
  Forall2 R l k → x ∈ l → ∃ y, y ∈ k ∧ R x y.
Proof.
  induction 1 as [|x' y l k HR _ IH]; intros Hin; [by apply elem_of_nil in Hin|].
  apply elem_of_cons in Hin as [-> |Hin].
  - exists y. split; [apply list_elem_of_here|done].
  - destruct (IH Hin) as (y' & Hy' & HR'). exists y'.
    split; [by apply list_elem_of_further|done].
Qed.

Lemma changedFiles_elem fs loaded filenames :
  changedFiles fs loaded = Some filenames →
  ∀ p, p ∈ filenames ↔
       p ≠ "" ∧ ∃ entry mtime, loaded !! p = Some entry
                  ∧ fs_stat fs p = inr mtime ∧ loadTime entry < mtime.
Proof.
  unfold changedFiles. intros Hc p.
  apply fmap_Some in Hc as (results & Hm & ->).
  apply mapM_Some in Hm. rewrite list_elem_of_omap. split.
  - intros (i & Hi & Hk). unfold keepTruthy in Hk.
    destruct i as [q|]; [|done].
    destruct (truthyName q) eqn:Hq; [|done]. injection Hk as ->.
    apply truthyName_true in Hq. split; [done|].
    destruct (Forall2_elem_of_r _ _ _ _ Hm Hi) as ([q e] & Hin & Hs).
    apply elem_of_map_to_list in Hin. unfold statChanged in Hs. simpl in Hs.
    destruct (fs_stat fs q) as [|mtime] eqn:Hst; [done|].
    destruct (Z.ltb_spec (loadTime e) mtime); [|done].
    injection Hs as <-. eauto.
  - intros (Hne & entry & mtime & Hl & Hs & Hlt).
    apply elem_of_map_to_list in Hl.
    destruct (Forall2_elem_of_l _ _ _ _ Hm Hl) as (i & Hi & Hf).
    exists i. split; [done|]. unfold statChanged in Hf. simpl in Hf.
    rewrite Hs in Hf. rewrite (proj2 (Z.ltb_lt _ _) Hlt) in Hf.
    injection Hf as <-. simpl. by rewrite (proj2 (truthyName_true p) Hne).
Qed.

Lemma upToDateDecision_dialog filenames behaviour refresh button dna shown :
  utd_dialog (upToDateDecision filenames behaviour refresh button dna) = Some shown →
  shown = filenames ∧ filenames ≠ [].
Proof.
  unfold upToDateDecision, askUser.
  destruct filenames as [|f fs']; simpl; [done|].
  destruct behaviour as [b|]; repeat case_bool_decide; simpl;
    destruct (button =? 0), (button =? 1); simpl; intros [= <-]; done.
Qed.

(** X19: when the message box of checkUpToDateFiles is shown, it lists
    exactly the loaded files with a non-empty path whose modification time
    on disk is later than their load time, and there is at least one. *)
Theorem checkUpToDateFiles_dialog fs st behaviour refresh button dna shown :
  utd_dialog (checkUpToDateFiles fs st behaviour refresh button dna) = Some shown →
  shown ≠ []
  ∧ ∀ p, p ∈ shown ↔
         p ≠ "" ∧ ∃ entry mtime, file_loaded st !! p = Some entry
                    ∧ fs_stat fs p = inr mtime ∧ loadTime entry < mtime.
Proof.
  unfold checkUpToDateFiles.
  destruct (changedFiles fs (file_loaded st)) as [filenames|] eqn:Hc; [|done].
  intros [-> Hne]%upToDateDecision_dialog. split; [done|].
  by apply changedFiles_elem.
Qed.

Lemma checkUpToDateFiles_dialog_witness :
  ["a.hex"] ≠ []
  ∧ ∀ p, p ∈ ["a.hex"] ↔
         p ≠ "" ∧ ∃ entry mtime, file_loaded loadedState !! p = Some entry
                    ∧ fs_stat touchedFs p = inr mtime ∧ loadTime entry < mtime.
Proof.
  apply (checkUpToDateFiles_dialog touchedFs loadedState None Resolves 0 false ["a.hex"]).
  vm_compute. reflexivity.
Defined.

(** X20: when stat succeeds on every loaded file and none is newer on
    disk than when it was loaded, checkUpToDateFiles resolves without a
    message box, without reloading and without touching the stored
    behaviour. *)
Theorem checkUpToDateFiles_unchanged fs st behaviour refresh button dna :
  (∀ p entry, file_loaded st !! p = Some entry →
     ∃ mtime, fs_stat fs p = inr mtime ∧ mtime ≤ loadTime entry) →
  checkUpToDateFiles fs st behaviour refresh button dna
  = mkUpToDate Resolves None false behaviour.
Proof.
  intros Hall. unfold checkUpToDateFiles, changedFiles.
  assert (mapM (statChanged fs) (map_to_list (file_loaded st))
          = Some (replicate (length (map_to_list (file_loaded st))) None)) as ->.
  { assert (Forall (λ pe, statChanged fs pe = Some None)
              (map_to_list (file_loaded st))) as Hf.
    { apply Forall_forall. intros [p e] Hin%elem_of_map_to_list.
      destruct (Hall p e Hin) as (mtime & Hs & Hle).
      unfold statChanged. simpl. rewrite Hs.
      by destruct (Z.ltb_spec (loadTime e) mtime); [lia|]. }
    induction Hf as [|pe l Hpe _ IH]; [done|].
    simpl. rewrite Hpe. simpl. rewrite IH. done. }
  simpl.
  assert (∀ n, omap keepTruthy (replicate n None) = []) as ->; [|done].
  intros n. induction n as [|n IH]; [done|]. simpl. exact IH.
Qed.

Lemma checkUpToDateFiles_unchanged_witness :
  checkUpToDateFiles sampleFs loadedState None Resolves 2 true
  = mkUpToDate Resolves None false None.
Proof.
  apply (checkUpToDateFiles_unchanged sampleFs loadedState).
  intros p entry Hl. exists 0. split; [done|].
  destruct (decide (p = "a.hex")) as [->|Hne].
  - vm_compute in Hl. injection Hl as <-. simpl. lia.
  - unfold loadedState in Hl. simpl in Hl.
    rewrite lookup_singleton_ne in Hl by done. done.
Defined.

(** X21: what the checkbox of the message box leaves behind.  Answered
    with the box checked, the first button stores 'ignore' and every later
    check resolves without asking or reloading; any other button, Cancel
    included, stores 'reload', so that every later check with changed files
    reloads them without asking; Cancel itself rejects. *)
Theorem upToDateDecision_remembers filenames behaviour refresh button :
  filenames ≠ [] →
  behaviour ≠ Some "ignore" → behaviour ≠ Some "reload" →
  let first := upToDateDecision filenames behaviour refresh button true in
  utd_dialog first = Some filenames
  ∧ (button = 0 →
       utd_settles first = Resolves
       ∧ ∀ filenames' refresh' button' dna',
           upToDateDecision filenames' (utd_behaviour first) refresh' button' dna'
           = mkUpToDate Resolves None false (Some "ignore"))
  ∧ (button ≠ 0 →
       ∀ filenames' refresh' button' dna', filenames' ≠ [] →
         upToDateDecision filenames' (utd_behaviour first) refresh' button' dna'
         = mkUpToDate refresh' None true (Some "reload"))
  ∧ (button ≠ 0 → button ≠ 1 → utd_settles first = Rejects).
Proof.
  intros Hne Hi Hr first.
  assert (first = askUser filenames behaviour refresh button true) as ->.
  { unfold first, upToDateDecision. destruct filenames as [|f l]; [done|]. simpl.
    destruct behaviour as [b|]; [|done].
    rewrite !bool_decide_eq_false_2 by congruence. done. }
  unfold askUser. split_and!.
  - by destruct (button =? 0), (button =? 1).
  - intros ->. simpl. split; [done|].
    intros filenames' refresh' button' dna'. unfold upToDateDecision. simpl.
    by destruct (length filenames' =? 0)%nat.
  - intros Hb filenames' refresh' button' dna' Hne'.
    rewrite (proj2 (Z.eqb_neq button 0) Hb).
    assert (utd_behaviour (if button =? 1
                           then mkUpToDate
                                  (match refresh with Resolves => Resolves
                                   | _ => NeverSettles end)
                                  (Some filenames) true (Some "reload")
                           else mkUpToDate Rejects (Some filenames) false (Some "reload"))
            = Some "reload") as -> by by destruct (button =? 1).
    unfold upToDateDecision. destruct filenames' as [|f l]; [done|]. done.
  - intros Hb0 Hb1.
    rewrite (proj2 (Z.eqb_neq button 0) Hb0), (proj2 (Z.eqb_neq button 1) Hb1). done.
Qed.

Lemma upToDateDecision_remembers_witness :
  utd_settles (upToDateDecision ["a.hex"] None Resolves 2 true) = Rejects
  ∧ upToDateDecision ["a.hex"]
      (utd_behaviour (upToDateDecision ["a.hex"] None Resolves 2 true)) Resolves 2 false
    = mkUpToDate Resolves None true (Some "reload").
Proof.
  destruct (upToDateDecision_remembers ["a.hex"] None Resolves 2)
    as (_ & _ & Hlater & Hcancel); [done..|].
  split.
  - apply Hcancel; lia.
  - apply Hlater; [lia|done].
Defined.

(** ** performUpdate *)

Lemma prefix_spec (needle hay : string) :
  String.prefix needle hay = true ↔ ∃ rest, hay = needle +:+ rest.
Proof.
  revert hay. induction needle as [|c needle IH]; intros hay.
  - destruct hay; simpl; split; eauto.
  - destruct hay as [|d hay]; simpl.
    + split; [done|]. by intros [rest ?].
    + destruct (Ascii.ascii_dec c d) as [->|Hne].
      * rewrite IH. split; intros [rest Hr]; exists rest.
        -- by rewrite Hr.
        -- by injection Hr.
      * split; [done|]. intros [rest Hr]. by injection Hr.
Qed.

Lemma includes_spec (needle hay : string) :
  includes needle hay = true ↔ ∃ before after, hay = before +:+ needle +:+ after.
Proof.
  induction hay as [|c hay IH].
  - change (includes needle "") with (String.prefix needle "" || false).
    rewrite orb_true_iff, prefix_spec. split.
    + intros [[rest Hr]|?]; [|done]. by exists "", rest.
    + intros (before & after & Hh).
      destruct before; [|done]. left. by exists after.
  - change (includes needle (String c hay))
      with (String.prefix needle (String c hay) || includes needle hay).
    rewrite orb_true_iff, prefix_spec, IH. split.
    + intros [[rest Hr]|(before & after & ->)].
      * by exists "", rest.
      * by exists (String c before), after.
    + intros (before & after & Hh). destruct before as [|d before].
      * left. by exists after.
      * right. simpl in Hh. injection Hh as -> ->. by exists before, after.
Qed.

(** X22: what performUpdate dispatches.  It always starts with the start
    action and the 'Starting...' message, followed by one update per progress
    report and then by what the final callback dispatches: the success action
    exactly for a falsy error; nothing for a non-empty string error (reading
    [includes] off its undefined [message] throws); and for an error object one
    failure action, which carries the fixed advice whenever the message
    contains 0x4, else the message, or the error itself when the message is
    empty. *)
Theorem performUpdate_log progress err :
  ∃ final,
    (performUpdate progress err).1
    = [MODEM_WRITING_START; MODEM_PROCESS_UPDATE "Starting..."]
        ++ (MODEM_PROCESS_UPDATE <$> progress) ++ final
    ∧ (final = [MODEM_WRITING_SUCCEED] ↔ err = None ∨ err = Some (ErrorValue ""))
    ∧ (final = [] ↔ (performUpdate progress err).2 = true)
    ∧ (final = [] ↔ ∃ text, text ≠ "" ∧ err = Some (ErrorValue text))
    ∧ ∀ message, err = Some (ErrorObject message) →
        ((∃ before after, message = before +:+ "0x4" +:+ after) →
           final = [MODEM_WRITING_FAIL
                      (Text "Failed with internal error. Please click Erase all button and try updating modem again.")])
        ∧ (¬ (∃ before after, message = before +:+ "0x4" +:+ after) →
             final = [MODEM_WRITING_FAIL
                        (if decide (message = "") then TheError (ErrorObject message)
                         else Text message)]).
Proof.
  exists (dfuCallback err).1. split; [done|].
  destruct err as [[message|text]|]; simpl.
  - pose proof (includes_spec "0x4" message) as Hin.
    assert (∀ m : ErrorMsg, [MODEM_WRITING_FAIL m] ≠ [MODEM_WRITING_SUCCEED]) as Hf
      by done.
    assert (∀ m : ErrorMsg, [MODEM_WRITING_FAIL m] ≠ []) as Hn by done.
    split_and!.
    + split; [intros H; by apply Hf in H|intros [?|?]; done].
    + split; [intros H; by apply Hn in H|done].
    + split; [intros H; by apply Hn in H|intros (text & _ & ?); done].
    + intros m [= <-]. split.
      * intros Hc. apply Hin in Hc. by rewrite Hc.
      * intros Hc. destruct (includes "0x4" message); [destruct Hc; by apply Hin|].
        unfold truthyName. destruct (decide (message = "")) as [->|Hne]; [done|].
        by rewrite bool_decide_eq_false_2.
  - unfold truthyName. destruct (decide (text = "")) as [->|Hne]; simpl.
    + split_and!.
      * split; [by right|done].
      * done.
      * split; [done|]. intros (t & Ht & [= <-]). done.
      * done.
    + rewrite bool_decide_eq_false_2 by done. simpl. split_and!.
      * split; [done|]. intros [?|[= ?]]; done.
      * done.
      * split; [|done]. intros _. by exists text.
      * done.
  - split_and!.
    + split; [by left|done].
    + done.
    + split; [done|]. intros (t & _ & ?). done.
    + done.
Qed.
